(** * RetireOnBitcoin: the projection engine of BitcoinRetirementCalculator.jsx

    A shallow embedding of the three calculation functions of
    [src/components/BitcoinRetirementCalculator.jsx]

      - [generateGrowthRates]        (lines 9-21)
      - [calculateProjections]       (lines 26-81)
      - [findOptimalAnnualExpenses]  (lines 86-107)

    together with the properties the specification states about them, and
    of the code of the same file around them:

      - [formatNumber], [parseFormattedNumber]            (lines 109-116)
      - [fetchBitcoinPrice]                               (lines 125-164)
      - [handleBlur] and [handleChange] of [InputField]   (lines 191-210)
      - the header and the collapsed list of [GrowthRatesDisplay]
                                                          (lines 349-359)
      - "Previous Borrowed" of [CalculationsModal]        (line 693)
      - the schedule, [updateBitcoinPrice] and the calculation effect of
        [BitcoinRetirementCalculator]                     (lines 886-948)

    Numbers.  A JavaScript number is modelled by [num]: an exact rational,
    [+Infinity], [-Infinity] or [NaN].  Arithmetic on finite values is exact
    (binary64 rounding and overflow are idealised away, and the two zeros are
    identified); the special values follow the IEEE rules the code can reach
    through a division by zero or through [Math.max()] of no arguments.
    Finite results are kept in lowest terms ([Qred]) so that equal numbers are
    equal terms. *)

From Stdlib Require Import ZArith QArith Qround Qreduction Qminmax.
From Stdlib Require Import List Bool Ascii Lia Lqa.
Import ListNotations.

Set Implicit Arguments.

(* ================================================================== *)
(** ** JavaScript numbers *)
(* ================================================================== *)

Module Js.

Inductive num : Type :=
| Fin (q : Q)
| PInf
| NInf
| NaN.

Definition of_Z (z : Z) : num := Fin (inject_Z z).

Definition is_finite (a : num) : bool :=
  match a with Fin _ => true | _ => false end.

(** The infinity a sign selects; a zero sign stands for [0 * Infinity] or
    [0 / 0], which are [NaN]. *)
Definition inf_of_sign (c : comparison) : num :=
  match c with Gt => PInf | Lt => NInf | Eq => NaN end.

(** [a + b] *)
Definition add (a b : num) : num :=
  match a, b with
  | NaN, _ | _, NaN => NaN
  | Fin x, Fin y => Fin (Qred (x + y))
  | PInf, NInf | NInf, PInf => NaN
  | PInf, _ | _, PInf => PInf
  | NInf, _ | _, NInf => NInf
  end.

(** [a - b] *)
Definition sub (a b : num) : num :=
  match a, b with
  | NaN, _ | _, NaN => NaN
  | Fin x, Fin y => Fin (Qred (x - y))
  | PInf, PInf | NInf, NInf => NaN
  | PInf, _ | _, NInf => PInf
  | NInf, _ | _, PInf => NInf
  end.

(** [a * b] *)
Definition mul (a b : num) : num :=
  match a, b with
  | NaN, _ | _, NaN => NaN
  | Fin x, Fin y => Fin (Qred (x * y))
  | Fin x, PInf | PInf, Fin x => inf_of_sign (x ?= 0)
  | Fin x, NInf | NInf, Fin x => inf_of_sign (CompOpp (x ?= 0))
  | PInf, PInf | NInf, NInf => PInf
  | PInf, NInf | NInf, PInf => NInf
  end.

(** [a / b]; a finite zero divisor is the positive zero. *)
Definition div (a b : num) : num :=
  match a, b with
  | NaN, _ | _, NaN => NaN
  | Fin x, Fin y =>
      if Qeq_bool y 0 then inf_of_sign (x ?= 0) else Fin (Qred (x / y))
  | Fin _, PInf | Fin _, NInf => Fin 0
  | PInf, Fin y => match y ?= 0 with Lt => NInf | _ => PInf end
  | NInf, Fin y => match y ?= 0 with Lt => PInf | _ => NInf end
  | _, _ => NaN
  end.

(** [a <= b]: false as soon as one side is [NaN]. *)
Definition leb (a b : num) : bool :=
  match a, b with
  | NaN, _ | _, NaN => false
  | Fin x, Fin y => Qle_bool x y
  | NInf, _ | _, PInf => true
  | _, _ => false
  end.

(** [a < b] *)
Definition ltb (a b : num) : bool :=
  match a, b with
  | NaN, _ | _, NaN => false
  | Fin x, Fin y => negb (Qle_bool y x)
  | PInf, _ | _, NInf => false
  | _, _ => true
  end.

(** [a > b] *)
Definition gtb (a b : num) : bool := ltb b a.

(** [Math.max(a, b)] *)
Definition max (a b : num) : num :=
  match a, b with
  | NaN, _ | _, NaN => NaN
  | PInf, _ | _, PInf => PInf
  | NInf, x | x, NInf => x
  | Fin x, Fin y => if Qle_bool x y then Fin y else Fin x
  end.

(** [Math.max(...l)]: the running maximum starts at [-Infinity], which is
    also the value for no argument at all. *)
Definition max_list (l : list num) : num := fold_left max l NInf.

(** [Math.round(a)]: the nearest integer, halves going up. *)
Definition round (a : num) : num :=
  match a with
  | Fin x => of_Z (Qfloor (x + (1 # 2)))
  | other => other
  end.

(** Truthiness of a number, as [||] tests it: [0] and [NaN] are falsy. *)
Definition truthy (a : num) : bool :=
  match a with
  | Fin x => negb (Qeq_bool x 0)
  | NaN => false
  | _ => true
  end.

(** [a || b] on two numbers. *)
Definition or (a b : num) : num := if truthy a then a else b.

End Js.

Import Js.

Declare Scope js_scope.
Delimit Scope js_scope with js.
Bind Scope js_scope with num.
Infix "+" := add : js_scope.
Infix "-" := sub : js_scope.
Infix "*" := mul : js_scope.
Infix "/" := div : js_scope.
Infix "<=?" := leb : js_scope.
Infix "<?" := ltb : js_scope.
Infix ">?" := gtb (at level 70) : js_scope.

(** Whole-number literals of the code ([100], [9], [50]) read as [num]. *)
Definition to_Z (a : num) : option Z :=
  match a with
  | Fin (z # 1) => Some z
  | _ => None
  end.
Number Notation num of_Z to_Z : js_scope.

(* ================================================================== *)
(** ** Exceptions *)
(* ================================================================== *)

(** The only exception the calculation can raise is the [TypeError] of
    reading [.rate] off [undefined]. *)
Inductive exn : Type := TypeError.

Inductive result (A : Type) : Type :=
| Ok (a : A)
| Throw (e : exn).
Arguments Ok {A} a.
Arguments Throw {A} e.

Definition bind {A B} (r : result A) (k : A -> result B) : result B :=
  match r with
  | Ok a => k a
  | Throw e => Throw e
  end.

Definition to_option {A} (r : result A) : option A :=
  match r with
  | Ok a => Some a
  | Throw _ => None
  end.

Notation "'let*' x ':=' r 'in' k" := (bind r (fun x => k))
  (at level 10, x pattern, r at level 100, k at level 200).

(* ================================================================== *)
(** ** Data *)
(* ================================================================== *)

(** An entry [{ year, rate }] of the growth schedule. *)
Module Entry.
Record t : Type := mk { year : Z; rate : num }.
End Entry.

(** A row of the projection table, as [projections.push] builds it. *)
Module Row.
Record t : Type := mk {
  year : Z;
  growthRate : num;
  bitcoinPriceStart : num;
  bitcoinPriceEnd : num;
  portfolioValue : num;
  totalBorrowed : num;
  totalInterest : num;
  totalDebt : num;
  netWorth : num;
  ltvRatio : num;
  annualExpenses : num
}.
End Row.

(** The fields of [inputs] the calculation reads.  [years] is a whole
    number, as the data model has it. *)
Module Inputs.
Record t : Type := mk {
  bitcoinAmount : num;
  bitcoinPrice : num;
  years : Z;
  interestRate : num;
  inflationRate : num;
  maxLTV : num;
  annualExpenses : num;
  growthRates : list Entry.t
}.

(** [{ ...inputs, annualExpenses: e }] *)
Definition with_annualExpenses (inputs : t) (e : num) : t :=
  mk (bitcoinAmount inputs) (bitcoinPrice inputs) (years inputs)
     (interestRate inputs) (inflationRate inputs) (maxLTV inputs)
     e (growthRates inputs).
End Inputs.

(* ================================================================== *)
(** ** generateGrowthRates *)
(* ================================================================== *)

Local Open Scope js_scope.

(** The rate of one year before it is rounded (lines 15-17). *)
Definition raw_rate (initialRate terminalRate decay : num) (year : Z) : num :=
  if (year <? 10)%Z
  then Js.max terminalRate (initialRate - decay * of_Z (year - 1))
  else terminalRate.

(** [Math.round(rate * 100) / 100] *)
Definition round2 (rate : num) : num := round (rate * 100) / 100.

(** The [for] loop of lines 14-19: [n] iterations are left, [year] is the
    loop variable and [rates] the array built so far. *)
Fixpoint growth_loop (n : nat) (initialRate terminalRate decay : num)
    (year : Z) (rates : list Entry.t) : list Entry.t :=
  match n with
  | O => rates
  | S n' =>
      let rate := raw_rate initialRate terminalRate decay year in
      growth_loop n' initialRate terminalRate decay (year + 1)
        (rates ++ [Entry.mk year (round2 rate)])
  end.

Definition generateGrowthRates (initialRate terminalRate : num) (years : Z)
    : list Entry.t :=
  let transitionYears := 9 in
  let decay := (initialRate - terminalRate) / transitionYears in
  growth_loop (Z.to_nat years) initialRate terminalRate decay 1 [].

(* ================================================================== *)
(** ** calculateProjections *)
(* ================================================================== *)

(** The [let] variables the loop of [calculateProjections] carries from one
    year to the next (lines 28-31). *)
Module Acc.
Record t : Type := mk {
  totalBorrowed : num;
  totalInterest : num;
  inflatedExpenses : num;
  bitcoinValue : num
}.
End Acc.

(** [inputs.growthRates[inputs.growthRates.length - 1].rate]: on an empty
    array the element is [undefined] and reading [.rate] throws. *)
Definition last_rate (growthRates : list Entry.t) : result num :=
  match growthRates with
  | [] => Throw TypeError
  | g :: rest => Ok (Entry.rate (last rest g))
  end.

(** Lines 44-45:
    [inputs.growthRates.find(g => g.year === year)?.rate || <last rate>].
    The right operand of [||] is evaluated when the left one is [undefined]
    (no entry found) or a falsy number. *)
Definition growth_rate_for (growthRates : list Entry.t) (year : Z)
    : result num :=
  match find (fun g => (Entry.year g =? year)%Z) growthRates with
  | Some g =>
      if truthy (Entry.rate g) then Ok (Entry.rate g)
      else last_rate growthRates
  | None => last_rate growthRates
  end.

(** One pass through the loop body (lines 34-77) for loop index [i]:
    the row pushed and the variables carried to the next pass. *)
Definition year_step (inputs : Inputs.t) (i : Z) (acc : Acc.t)
    : result (Row.t * Acc.t) :=
  let year := (i + 1)%Z in
  let newInterest :=
    Acc.totalBorrowed acc * (Inputs.interestRate inputs / 100) in
  let totalInterest := Acc.totalInterest acc + newInterest in
  let totalBorrowed := Acc.totalBorrowed acc + Acc.inflatedExpenses acc in
  let* growthRate := growth_rate_for (Inputs.growthRates inputs) year in
  let bitcoinValue := Acc.bitcoinValue acc in
  let nextBitcoinValue := bitcoinValue * (1 + growthRate / 100) in
  let portfolioValue := nextBitcoinValue * Inputs.bitcoinAmount inputs in
  let totalDebt := totalBorrowed + totalInterest in
  let netWorth := portfolioValue - totalDebt in
  let startYearPortfolioValue := bitcoinValue * Inputs.bitcoinAmount inputs in
  let ltvRatio := (totalDebt / startYearPortfolioValue) * 100 in
  Ok (Row.mk year growthRate
        (round bitcoinValue)
        (round nextBitcoinValue)
        (round portfolioValue)
        (round totalBorrowed)
        (round totalInterest)
        (round totalDebt)
        (round netWorth)
        (round ltvRatio)
        (round (Acc.inflatedExpenses acc)),
      Acc.mk totalBorrowed totalInterest
        (Acc.inflatedExpenses acc * (1 + Inputs.inflationRate inputs / 100))
        nextBitcoinValue).

(** The [for (let i = 0; i < inputs.years; i++)] loop: [n] passes are left. *)
Fixpoint projection_loop (n : nat) (inputs : Inputs.t) (i : Z) (acc : Acc.t)
    (projections : list Row.t) : result (list Row.t) :=
  match n with
  | O => Ok projections
  | S n' =>
      let* (row, acc') := year_step inputs i acc in
      projection_loop n' inputs (i + 1) acc' (projections ++ [row])
  end.

Definition initial_acc (inputs : Inputs.t) : Acc.t :=
  Acc.mk 0 0 (Inputs.annualExpenses inputs) (Inputs.bitcoinPrice inputs).

Definition calculateProjections (inputs : Inputs.t) : result (list Row.t) :=
  projection_loop (Z.to_nat (Inputs.years inputs)) inputs 0
    (initial_acc inputs) [].

(* ================================================================== *)
(** ** findOptimalAnnualExpenses *)
(* ================================================================== *)

Definition PRECISION : num := 100.

(** [inputs.maxLTV || 50] *)
Definition effective_maxLTV (inputs : Inputs.t) : num :=
  Js.or (Inputs.maxLTV inputs) 50.

(** [Math.max(...projections.map(p => p.ltvRatio))] *)
Definition maxLTVInProjections (projections : list Row.t) : num :=
  max_list (map Row.ltvRatio projections).

(** The [while (high - low > PRECISION)] loop of lines 93-104.  The loop has
    no bound of its own, so the model counts passes: [None] means that
    [fuel] passes were not enough to leave the loop. *)
Fixpoint search_loop (fuel : nat) (inputs : Inputs.t) (maxLTV : num)
    (low high optimalExpenses : num) : option (result num) :=
  match fuel with
  | O => None
  | S fuel' =>
      if high - low >? PRECISION then
        let mid := (low + high) / 2 in
        match calculateProjections (Inputs.with_annualExpenses inputs mid) with
        | Throw e => Some (Throw e)
        | Ok projections =>
            if maxLTVInProjections projections <=? maxLTV
            then search_loop fuel' inputs maxLTV mid high mid
            else search_loop fuel' inputs maxLTV low mid optimalExpenses
        end
      else Some (Ok optimalExpenses)
  end.

Definition findOptimalAnnualExpenses (fuel : nat) (inputs : Inputs.t)
    : option (result num) :=
  let low := 0 in
  let high := Inputs.bitcoinPrice inputs * Inputs.bitcoinAmount inputs in
  let optimalExpenses := 0 in
  let maxLTV := effective_maxLTV inputs in
  match search_loop fuel inputs maxLTV low high optimalExpenses with
  | Some (Ok optimalExpenses') => Some (Ok (round optimalExpenses'))
  | other => other
  end.

(* ================================================================== *)
(** ** Vocabulary of the properties *)
(* ================================================================== *)

(** A number that is a rational; one that is a rational [>= 0]; one that is
    a rational [> 0]. *)
Definition finite (a : num) : Prop := is_finite a = true.

Definition nonneg (a : num) : Prop :=
  match a with Fin q => (0 <= q)%Q | _ => False end.

Definition positive (a : num) : Prop :=
  match a with Fin q => (0 < q)%Q | _ => False end.

(** The order of two finite numbers. *)
Definition le (a b : num) : Prop :=
  match a, b with
  | Fin x, Fin y => (x <= y)%Q
  | _, _ => False
  end.

(** [a] and [b] differ by at most [tol]: [a - b <= tol && b - a <= tol]. *)
Definition within (tol a b : num) : bool :=
  (a - b <=? tol) && (b - a <=? tol).

(** The values the loop variable [year] takes: [n] consecutive integers
    starting at [y]. *)
Fixpoint years_from (y : Z) (n : nat) : list Z :=
  match n with
  | O => []
  | S n' => y :: years_from (y + 1) n'
  end.

(** The rate of year [y] in the words of the specification: the terminal
    rate from year 10 on, the clamped linear decay before. *)
Definition schedule_rate (initialRate terminalRate : num) (y : Z) : num :=
  let decay := (initialRate - terminalRate) / 9 in
  if (10 <=? y)%Z then terminalRate
  else Js.max terminalRate (initialRate - decay * of_Z (y - 1)).

(* ================================================================== *)
(** ** The yearly recurrence *)
(* ================================================================== *)

(** The quantities of the simulation after [k] simulated years, written as
    recurrences on [k] and independently of the loop: what has been borrowed,
    the interest accrued, the expenses of the coming year and the price. *)
Section Recurrence.

Variable inputs : Inputs.t.

Let rate := Inputs.interestRate inputs / 100.
Let inflation := 1 + Inputs.inflationRate inputs / 100.

Fixpoint expenses_after (k : nat) : num :=
  match k with
  | O => Inputs.annualExpenses inputs
  | S k' => expenses_after k' * inflation
  end.

Fixpoint borrowed_after (k : nat) : num :=
  match k with
  | O => 0
  | S k' => borrowed_after k' + expenses_after k'
  end.

(** Year [k + 1] adds interest on what was borrowed during the first [k]
    years only. *)
Fixpoint interest_after (k : nat) : num :=
  match k with
  | O => 0
  | S k' => interest_after k' + borrowed_after k' * rate
  end.

Definition debt_after (k : nat) : num := borrowed_after k + interest_after k.

(** The rate the loop uses in year [k + 1]. *)
Definition growth_of_year (k : nat) : result num :=
  growth_rate_for (Inputs.growthRates inputs) (Z.of_nat k + 1).

(** The price after [k] years: the start price of year [k + 1] and the end
    price of year [k]. *)
Fixpoint price_after (k : nat) : result num :=
  match k with
  | O => Ok (Inputs.bitcoinPrice inputs)
  | S k' =>
      let* price := price_after k' in
      let* growthRate := growth_of_year k' in
      Ok (price * (1 + growthRate / 100))
  end.

(** The loop variables on entry to pass [k] (loop index [i = k]). *)
Definition acc_after (k : nat) : result Acc.t :=
  let* price := price_after k in
  Ok (Acc.mk (borrowed_after k) (interest_after k) (expenses_after k) price).

(** The row pass [k] pushes, from the recurrences. *)
Definition row_of_year (k : nat) : result Row.t :=
  let* price := price_after k in
  let* growthRate := growth_of_year k in
  let priceEnd := price * (1 + growthRate / 100) in
  let portfolioValue := priceEnd * Inputs.bitcoinAmount inputs in
  let totalDebt := debt_after (S k) in
  Ok (Row.mk (Z.of_nat k + 1) growthRate
        (round price)
        (round priceEnd)
        (round portfolioValue)
        (round (borrowed_after (S k)))
        (round (interest_after (S k)))
        (round totalDebt)
        (round (portfolioValue - totalDebt))
        (round (totalDebt / (price * Inputs.bitcoinAmount inputs) * 100))
        (round (expenses_after k))).

End Recurrence.

(** All numbers of the inputs, schedule included, are finite. *)
Definition all_finite (inputs : Inputs.t) : bool :=
  is_finite (Inputs.bitcoinAmount inputs)
  && is_finite (Inputs.bitcoinPrice inputs)
  && is_finite (Inputs.interestRate inputs)
  && is_finite (Inputs.inflationRate inputs)
  && is_finite (Inputs.annualExpenses inputs)
  && forallb (fun g => is_finite (Entry.rate g)) (Inputs.growthRates inputs).

(** The domain of the inputs: a positive amount and price, at least one
    year, rates [>= 0] and a ceiling in (0, 100], all of them finite. *)
Definition valid_inputs (inputs : Inputs.t) : bool :=
  is_finite (Inputs.bitcoinAmount inputs)
  && (0 <? Inputs.bitcoinAmount inputs)
  && is_finite (Inputs.bitcoinPrice inputs)
  && (0 <? Inputs.bitcoinPrice inputs)
  && (1 <=? Inputs.years inputs)%Z
  && is_finite (Inputs.interestRate inputs)
  && (0 <=? Inputs.interestRate inputs)
  && is_finite (Inputs.inflationRate inputs)
  && (0 <=? Inputs.inflationRate inputs)
  && is_finite (Inputs.maxLTV inputs)
  && (0 <? Inputs.maxLTV inputs)
  && (Inputs.maxLTV inputs <=? 100).

(** Every rate of the schedule is finite and above -100 percent, so that no
    year takes the price to zero or below. *)
Definition prices_stay_positive (inputs : Inputs.t) : bool :=
  forallb (fun g => is_finite (Entry.rate g) && (-100 <? Entry.rate g))
          (Inputs.growthRates inputs).

(** [e] keeps the loan-to-value ratio of every year at or below [maxLTV]:
    the test of line 98 for the candidate [e]. *)
Definition is_feasible (inputs : Inputs.t) (maxLTV e : num) : bool :=
  match calculateProjections (Inputs.with_annualExpenses inputs e) with
  | Ok projections => maxLTVInProjections projections <=? maxLTV
  | Throw _ => false
  end.

(** What the search knows about [optimalExpenses]: it is still the initial
    [0], or it is a positive candidate that passed the test. *)
Definition found (inputs : Inputs.t) (maxLTV opt : num) : Prop :=
  opt = 0 \/ (positive opt /\ is_feasible inputs maxLTV opt = true).

(** [(low + high) / 2] on finite bounds. *)
Definition midpoint (l h : Q) : Q := Qred (Qred (l + h) / inject_Z 2).

(** The number of times an interval of width [w] is halved before it is no
    wider than 100, and the passes of [search_loop] that takes. *)
Definition halvings (w : Q) : nat :=
  Z.to_nat (Z.log2_up (Qceiling (w / inject_Z 100))).

(** Passes of [search_loop] that suffice for the initial interval
    [0 .. bitcoinPrice * bitcoinAmount]. *)
Definition enough_fuel (inputs : Inputs.t) : nat :=
  match (Inputs.bitcoinPrice inputs * Inputs.bitcoinAmount inputs)%js with
  | Fin w => S (halvings w)
  | _ => 1
  end.

(* ================================================================== *)
(** ** Sample inputs *)
(* ================================================================== *)

(** The inputs of the calculator as the page first shows them, at a price
    of 100000, and the table they give. *)
Definition default_inputs : Inputs.t :=
  Inputs.mk 3 100000 20 14 3 50 150000 (generateGrowthRates 60 15 20).

Definition default_rows : list Row.t :=
  Eval vm_compute in
    match calculateProjections default_inputs with
    | Ok rows => rows
    | Throw _ => []
    end.

Definition default_row_1 : Row.t :=
  Eval vm_compute in nth 0 default_rows (Row.mk 0 0 0 0 0 0 0 0 0 0 0).

Definition default_row_2 : Row.t :=
  Eval vm_compute in nth 1 default_rows (Row.mk 0 0 0 0 0 0 0 0 0 0 0).

Definition default_row_3 : Row.t :=
  Eval vm_compute in nth 2 default_rows (Row.mk 0 0 0 0 0 0 0 0 0 0 0).

(** The inputs of the one-year recurrence check of the specification, with
    [bitcoinAmount = 0] instead of [1]. *)
Definition zero_amount_inputs : Inputs.t :=
  Inputs.mk 0 100000 1 0 0 50 10000 [Entry.mk 1 10].

(** A schedule that falls from 8 percent to -10 percent passes through 0 in
    year 5. *)
Definition falling_inputs : Inputs.t :=
  Inputs.mk 1 100000 20 0 0 50 10000 (generateGrowthRates 8 (-10) 20).

(** One Bitcoin at 100000 over three years, 5 percent interest, 3 percent
    inflation and a ceiling of 71 percent. *)
Definition tight_inputs : Inputs.t :=
  Inputs.mk 1 100000 3 5 3 71 0 (generateGrowthRates 60 15 3).

(** The default inputs with no year to simulate. *)
Definition no_years_inputs : Inputs.t :=
  Inputs.mk 3 100000 0 14 3 50 150000 [].

(** The inputs the page starts with, borrowed at no interest. *)
Definition interest_free_inputs : Inputs.t :=
  Inputs.mk 3 100000 20 0 3 50 150000 (generateGrowthRates 60 15 20).

(** Expenses of 100000.5 a year, no inflation, two years. *)
Definition half_unit_inputs : Inputs.t :=
  Inputs.mk 1 100000 2 0 0 50 (Fin (200001 # 2)) (generateGrowthRates 60 15 2).

(** [{ ...inputs, bitcoinAmount: c * inputs.bitcoinAmount,
       annualExpenses: c * inputs.annualExpenses }]:
    [c] times the holdings, spending [c] times as much. *)
Definition scale_holdings (c : num) (inputs : Inputs.t) : Inputs.t :=
  Inputs.mk (c * Inputs.bitcoinAmount inputs) (Inputs.bitcoinPrice inputs)
            (Inputs.years inputs) (Inputs.interestRate inputs)
            (Inputs.inflationRate inputs) (Inputs.maxLTV inputs)
            (c * Inputs.annualExpenses inputs) (Inputs.growthRates inputs).

(** [b] is [c] times [a], both finite. *)
Definition scaled (c : Q) (a b : num) : Prop :=
  match a, b with
  | Fin x, Fin y => (y == c * x)%Q
  | _, _ => False
  end.

(** The spending of [default_inputs] against a different holding, price
    and schedule. *)
Definition other_bitcoin_inputs : Inputs.t :=
  Inputs.mk 1 50000 20 14 3 50 150000 (generateGrowthRates 30 10 20).

(** [f] to the power [k], and the sum of the powers of [f] below [k]. *)
Fixpoint compound (f : Q) (k : nat) : Q :=
  match k with
  | O => 1
  | S k' => compound f k' * f
  end.

Fixpoint compound_sum (f : Q) (k : nat) : Q :=
  match k with
  | O => 0
  | S k' => compound_sum f k' + compound f k'
  end.

(* ================================================================== *)
(** ** The schedule on the page *)
(* ================================================================== *)

(** The rate of year [y] before the clamp, on rationals:
    [initialRate - decay * (y - 1)]. *)
Definition decayed (a b : Q) (y : Z) : Q :=
  (a - (a - b) / inject_Z 9 * inject_Z (y - 1))%Q.

(** [growthRates[0]?.rate] and [growthRates[9]?.rate], the "Initial" and
    "Final" figures of the header of [GrowthRatesDisplay] (line 359);
    [None] stands for [undefined]. *)
Definition header_initial (growthRates : list Entry.t) : option num :=
  option_map Entry.rate (nth_error growthRates 0).

Definition header_final (growthRates : list Entry.t) : option num :=
  option_map Entry.rate (nth_error growthRates 9).

(** [displayedRates] of [GrowthRatesDisplay] (lines 349-352); [slice(0, 10)]
    keeps the first ten entries. *)
Definition displayedRates (isMobile showAllYears : bool)
    (growthRates : list Entry.t) : list Entry.t :=
  if negb isMobile || showAllYears then growthRates
  else firstn 10 growthRates.

(* ================================================================== *)
(** ** The calculation breakdown *)
(* ================================================================== *)

(** "Previous Borrowed" of [CalculationsModal] (lines 693, 695, 699):
    [row.totalBorrowed - row.annualExpenses], on the rounded fields. *)
Definition modalPreviousBorrowed (row : Row.t) : num :=
  Row.totalBorrowed row - Row.annualExpenses row.

(* ================================================================== *)
(** ** The page *)
(* ================================================================== *)

(** The [inputs] state of [BitcoinRetirementCalculator] (lines 866-878).
    [bitcoinPrice] is [null] until the first quote arrives.  The text fields
    store what [parseFloat] returns, so [years] is a number like the others
    and need not be whole. *)
Module Page.
Record t : Type := mk {
  bitcoinAmount : num;
  bitcoinPrice : option num;
  years : num;
  interestRate : num;
  initialGrowthRate : num;
  terminalGrowthRate : num;
  inflationRate : num;
  maxLTV : num;
  useOptimalExpenses : bool;
  annualExpenses : num
}.
End Page.

(** The two pieces of state the calculation effect writes (lines 882-883). *)
Module View.
Record t : Type := mk {
  optimalExpenses : num;
  results : list Row.t
}.
End View.

(** The loops under a bound that is not whole.
    [for (let year = 1; year <= years; year++)] visits the whole numbers from
    1 to the floor of [years], and [for (let i = 0; i < years; i++)] those
    from 0 to below its ceiling: each runs as it does for that whole bound.
    A comparison with [NaN] is false, and under [Infinity] neither loop
    ends. *)
Definition years_at_most (years : num) : option Z :=
  match years with
  | Fin q => Some (Qfloor q)
  | PInf => None
  | NInf | NaN => Some 0%Z
  end.

Definition years_below (years : num) : option Z :=
  match years with
  | Fin q => Some (Qceiling q)
  | PInf => None
  | NInf | NaN => Some 0%Z
  end.

(** The memoised schedule of lines 886-889. *)
Definition page_growthRates (page : Page.t) : option (list Entry.t) :=
  option_map
    (generateGrowthRates (Page.initialGrowthRate page)
                         (Page.terminalGrowthRate page))
    (years_at_most (Page.years page)).

(** [{ ...inputs, growthRates }] as the calculation reads it, with the bound
    [years] of its loop. *)
Definition baseInputs (page : Page.t) (price : num) (years : Z)
    (growthRates : list Entry.t) : Inputs.t :=
  Inputs.mk (Page.bitcoinAmount page) price years (Page.interestRate page)
            (Page.inflationRate page) (Page.maxLTV page)
            (Page.annualExpenses page) growthRates.

(** The calculation effect of lines 918-948 together with the schedule it
    depends on: the state it leaves, the exception it raises, or [None] when
    a loop does not end (within [fuel] passes, for the search). *)
Definition recalculate (fuel : nat) (page : Page.t) (view : View.t)
    : option (result View.t) :=
  match page_growthRates page, years_below (Page.years page) with
  | Some growthRates, Some years =>
      match Page.bitcoinPrice page with
      | None => Some (Ok view)
      | Some price =>
          let baseInputs := baseInputs page price years growthRates in
          if Page.useOptimalExpenses page then
            match findOptimalAnnualExpenses fuel baseInputs with
            | None => None
            | Some (Throw e) => Some (Throw e)
            | Some (Ok optimal) =>
                match calculateProjections
                        (Inputs.with_annualExpenses baseInputs optimal) with
                | Throw e => Some (Throw e)
                | Ok newResults => Some (Ok (View.mk optimal newResults))
                end
            end
          else
            match calculateProjections
                    (Inputs.with_annualExpenses baseInputs
                       (Page.annualExpenses page)) with
            | Throw e => Some (Throw e)
            | Ok newResults =>
                Some (Ok (View.mk (View.optimalExpenses view) newResults))
            end
      end
  | _, _ => None
  end.

(** The page as it is first shown, once a quote of 100000 has arrived. *)
Definition default_page : Page.t :=
  Page.mk 3 (Some 100000) 20 14 60 15 3 50 true 150000.

(** The same page after "0.5" has been typed into the years field. *)
Definition half_year_page : Page.t :=
  Page.mk 3 (Some 100000) (Fin (1 # 2)) 14 60 15 3 50 true 150000.

Definition initial_view : View.t := View.mk 0 [].

(* ================================================================== *)
(** ** fetchBitcoinPrice and updateBitcoinPrice *)
(* ================================================================== *)

Definition FETCH_COOLDOWN_MS : Z := 60000.

(** What the request of one call comes to.  [NoResponse]: [fetch] rejects.
    [Response status usd]: a response with that status; [usd] is [None] when
    [response.json()] rejects or [data.market_data.current_price.usd] cannot
    be read, and otherwise the number [Math.round] is applied to ([NaN] when
    the figure found there is not a number). *)
Inductive reply : Type :=
| NoResponse
| Response (status : Z) (usd : option num).

(** [response.ok]: a status from 200 to 299. *)
Definition response_ok (status : Z) : bool :=
  ((200 <=? status) && (status <=? 299))%Z.

(** The errors of a call, by what raises them: the two rate limits, a
    status that is not ok, and whatever [fetch], [json()] or the property
    access raise themselves. *)
Inductive fetch_error : Type :=
| RateLimited
| RateLimitedByApi
| FailedStatus (status : Z)
| RequestFailed.

(** How the promise of a call settles. *)
Inductive settled : Type :=
| Resolved (price : num)
| Rejected (error : fetch_error).

(** The [try] block of lines 134-156, up to the assignment. *)
Definition request (r : reply) : fetch_error + num :=
  match r with
  | NoResponse => inl RequestFailed
  | Response status usd =>
      if (status =? 429)%Z then inl RateLimitedByApi
      else if negb (response_ok status) then inl (FailedStatus status)
      else match usd with
           | None => inl RequestFailed
           | Some v => inr (round v)
           end
  end.

(** One call of [fetchBitcoinPrice] (lines 128-164) that starts at clock
    value [now] and is answered by [r], the module variable
    [lastSuccessfulFetch] being passed in and out.  Calls do not overlap: a
    call has settled before the next one starts. *)
Definition fetchBitcoinPrice (now : Z) (r : reply) (lastSuccessfulFetch : Z)
    : settled * Z :=
  if negb (lastSuccessfulFetch =? 0)%Z
     && (now - lastSuccessfulFetch <? FETCH_COOLDOWN_MS)%Z
  then (Rejected RateLimited, lastSuccessfulFetch)
  else
    match request r with
    | inr price => (Resolved price, now)
    | inl error =>
        if (lastSuccessfulFetch =? 0)%Z
        then (Resolved 100000, lastSuccessfulFetch)
        else (Rejected error, lastSuccessfulFetch)
    end.

(** A sequence of calls, each with its clock value and its reply: how each
    settles and the value of [lastSuccessfulFetch] it leaves. *)
Fixpoint fetch_run (calls : list (Z * reply)) (lastSuccessfulFetch : Z)
    : list (settled * Z) :=
  match calls with
  | [] => []
  | (now, r) :: rest =>
      let (outcome, last) := fetchBitcoinPrice now r lastSuccessfulFetch in
      (outcome, last) :: fetch_run rest last
  end.

(** [{ ...prev, bitcoinPrice: price }] *)
Definition with_bitcoinPrice (prev : Page.t) (price : num) : Page.t :=
  Page.mk (Page.bitcoinAmount prev) (Some price) (Page.years prev)
          (Page.interestRate prev) (Page.initialGrowthRate prev)
          (Page.terminalGrowthRate prev) (Page.inflationRate prev)
          (Page.maxLTV prev) (Page.useOptimalExpenses prev)
          (Page.annualExpenses prev).

(** [updateBitcoinPrice] (lines 891-911): [inputs] is the state the function
    closed over, [prev] the state when the call settles.  The result is the
    new state, [priceError] and [lastSuccessfulFetch]. *)
Definition updateBitcoinPrice (now : Z) (r : reply) (inputs prev : Page.t)
    (lastSuccessfulFetch : Z) : Page.t * option fetch_error * Z :=
  match fetchBitcoinPrice now r lastSuccessfulFetch with
  | (Resolved price, last) => (with_bitcoinPrice prev price, None, last)
  | (Rejected error, last) =>
      match Page.bitcoinPrice inputs with
      | None => (with_bitcoinPrice prev 100000, Some error, last)
      | Some _ => (prev, Some error, last)
      end
  end.

(** The state the page is created with (lines 866-878). *)
Definition initial_page : Page.t :=
  Page.mk 3 None 20 14 60 15 3 50 true 150000.

(* ================================================================== *)
(** ** Text fields: formatNumber, parseFormattedNumber and InputField *)
(* ================================================================== *)

(** A string is the list of its characters.  The characters the code tells
    apart are ASCII; any other character is one or more values from 128 on,
    which are neither digits nor signs nor separators. *)
Definition str : Type := list ascii.

Definition is_digit (c : ascii) : bool :=
  (48 <=? nat_of_ascii c)%nat && (nat_of_ascii c <=? 57)%nat.

Definition digit_value (c : ascii) : Z := Z.of_nat (nat_of_ascii c) - 48.

Definition digit_char (d : Z) : ascii := ascii_of_nat (Z.to_nat (d + 48)).

(** The number a run of digits denotes. *)
Definition digits_value (ds : str) : Z :=
  fold_left (fun v c => 10 * v + digit_value c)%Z ds 0%Z.

(** The longest run of digits a string starts with, and what follows it. *)
Fixpoint span_digits (s : str) : str * str :=
  match s with
  | c :: t =>
      if is_digit c
      then let (ds, rest) := span_digits t in (c :: ds, rest)
      else ([], s)
  | [] => ([], [])
  end.

Definition is_space (c : ascii) : bool :=
  ((9 <=? nat_of_ascii c) && (nat_of_ascii c <=? 13)
   || (nat_of_ascii c =? 32))%nat.

Fixpoint trim_start (s : str) : str :=
  match s with
  | c :: t => if is_space c then trim_start t else s
  | [] => []
  end.

Fixpoint starts_with (prefix s : str) : bool :=
  match prefix, s with
  | [], _ => true
  | p :: prefix', c :: s' => Ascii.eqb p c && starts_with prefix' s'
  | _ :: _, [] => false
  end.

(** A leading sign, and the string after it. *)
Definition split_sign (s : str) : bool * str :=
  match s with
  | c :: t =>
      if Ascii.eqb c "-" then (true, t)
      else if Ascii.eqb c "+" then (false, t)
      else (false, s)
  | [] => (false, [])
  end.

(** The exponent part a string starts with: [e] or [E], a sign or none, and
    at least one digit; 0 when it starts with none. *)
Definition exponent (s : str) : Z :=
  match s with
  | c :: t =>
      if Ascii.eqb c "e" || Ascii.eqb c "E" then
        let (negative, t') := split_sign t in
        match fst (span_digits t') with
        | [] => 0%Z
        | ds => if negative then (- digits_value ds)%Z else digits_value ds
        end
      else 0%Z
  | [] => 0%Z
  end.

(** [parseFloat(s)]: white space, a sign, and the longest decimal literal
    the rest starts with, or [Infinity].  White space outside ASCII is not
    recognised; no string of the fields starts with any. *)
Definition parseFloat (s : str) : num :=
  let (negative, s1) := split_sign (trim_start s) in
  if starts_with ["I"; "n"; "f"; "i"; "n"; "i"; "t"; "y"]%char s1
  then if negative then NInf else PInf
  else
    let (ip, s2) := span_digits s1 in
    let (fp, s3) :=
      match s2 with
      | c :: t => if Ascii.eqb c "." then span_digits t else ([], s2)
      | [] => ([], s2)
      end in
    match ip, fp with
    | [], [] => NaN
    | _, _ =>
        let mantissa :=
          (inject_Z (digits_value ip)
           + inject_Z (digits_value fp)
             / inject_Z (10 ^ Z.of_nat (length fp)))%Q in
        let value := (mantissa * Qpower 10 (exponent s3))%Q in
        Fin (Qred (if negative then - value else value))
    end.

(** [value.replace(/,/g, '')] *)
Definition remove_commas (value : str) : str :=
  filter (fun c => negb (Ascii.eqb c ",")) value.

Definition parseFormattedNumber (value : str) : num :=
  parseFloat (remove_commas value).

(** The decimal digits of a whole number [n >= 0], most significant first;
    [fuel] bounds their number. *)
Fixpoint digits_loop (fuel : nat) (n : Z) (acc : str) : str :=
  match fuel with
  | O => acc
  | S fuel' =>
      let acc' := digit_char (n mod 10) :: acc in
      if (n <? 10)%Z then acc' else digits_loop fuel' (n / 10) acc'
  end.

Definition digits (n : Z) : str :=
  digits_loop (S (Z.to_nat (Z.log2 n))) n [].

(** Commas between groups of three, on the reversed digits. *)
Fixpoint group_reversed (s : str) : str :=
  match s with
  | a :: b :: c :: ((_ :: _) as rest) =>
      a :: b :: c :: ","%char :: group_reversed rest
  | _ => s
  end.

Definition group (ds : str) : str := rev (group_reversed (rev ds)).

Fixpoint drop_zeros (s : str) : str :=
  match s with
  | c :: t => if Ascii.eqb c "0" then drop_zeros t else s
  | [] => []
  end.

(** The digits of [f] thousandths, [0 < f < 1000], without the zeros at
    the end. *)
Definition fraction_digits (f : Z) : str :=
  rev (drop_zeros
         [digit_char (f mod 10); digit_char (f / 10 mod 10);
          digit_char (f / 100)]).

(** [v.toLocaleString('en-US')] with the default options: at most three
    decimals, the half going away from zero, groups of three digits, and a
    minus sign for every number below zero. *)
Definition toLocaleString (v : num) : str :=
  match v with
  | NaN => ["N"; "a"; "N"]%char
  | PInf => [ascii_of_nat 226; ascii_of_nat 136; ascii_of_nat 158]
  | NInf => "-"%char
            :: [ascii_of_nat 226; ascii_of_nat 136; ascii_of_nat 158]
  | Fin q =>
      let negative := negb (Qle_bool 0 q) in
      let magnitude := (if negative then - q else q)%Q in
      let thousandths := Qfloor (magnitude * inject_Z 1000 + (1 # 2)) in
      let whole := (thousandths / 1000)%Z in
      let f := (thousandths mod 1000)%Z in
      (if negative then ["-"%char] else [])
      ++ group (digits whole)
      ++ (if (f =? 0)%Z then [] else "."%char :: fraction_digits f)
  end.

(** [formatNumber]; [None] stands for [undefined] and [null]. *)
Definition formatNumber (value : option num) : str :=
  match value with
  | None => ["0"%char]
  | Some v => toLocaleString v
  end.

Definition isNaN (a : num) : bool :=
  match a with NaN => true | _ => false end.

(** [handleChange] of [InputField] (lines 200-210) for the text [typed]:
    the new [inputValue] and the value passed to [onChange], if any. *)
Definition handleChange (disabled isLoading : bool) (inputValue typed : str)
    : str * option num :=
  if negb disabled && negb isLoading then
    let newValue :=
      filter (fun c => is_digit c || Ascii.eqb c "." || Ascii.eqb c ",")
             typed in
    let parsed := parseFormattedNumber newValue in
    (newValue, if negb (isNaN parsed) then Some parsed else None)
  else (inputValue, None).

(** [handleBlur] (lines 191-198) of a field of type "number". *)
Definition handleBlur (isLoading : bool) (inputValue : str)
    : str * option num :=
  if negb isLoading then
    let parsedValue := parseFormattedNumber inputValue in
    (formatNumber (Some parsedValue), Some parsedValue)
  else (inputValue, None).

(* ================================================================== *)
(** ** Numbers: finite values, order and rounding *)
(* ================================================================== *)

#[local] Arguments Qred : simpl never.
#[local] Arguments Qplus : simpl never.
#[local] Arguments Qminus : simpl never.
#[local] Arguments Qmult : simpl never.
#[local] Arguments Qdiv : simpl never.
#[local] Arguments Qopp : simpl never.
#[local] Arguments Qfloor : simpl never.
#[local] Arguments Qle_bool : simpl never.
#[local] Arguments Qeq_bool : simpl never.
#[local] Arguments Qcompare : simpl never.
#[local] Arguments inject_Z : simpl never.

Section Numbers.

Lemma finite_inv (a : num) : finite a -> exists q, a = Fin q.
Proof. destruct a; try discriminate. eauto. Qed.

Lemma nonneg_finite (a : num) : nonneg a -> finite a.
Proof. destruct a; simpl; try contradiction. reflexivity. Qed.

Lemma positive_nonneg (a : num) : positive a -> nonneg a.
Proof. destruct a; simpl; try contradiction. apply Qlt_le_weak. Qed.

Lemma nonneg_of_leb (a : num) :
  finite a -> (0 <=? a) = true -> nonneg a.
Proof.
  destruct a; try discriminate. simpl. intros _ H.
  now apply Qle_bool_iff in H.
Qed.

Lemma positive_of_ltb (a : num) :
  finite a -> (0 <? a) = true -> positive a.
Proof.
  destruct a; try discriminate. simpl. intros _ H.
  apply negb_true_iff in H. apply Qnot_le_lt. intro Hle.
  apply Qle_bool_iff in Hle. unfold inject_Z in H. congruence.
Qed.

Lemma Qle_bool_false (x y : Q) : Qle_bool x y = false <-> (y < x)%Q.
Proof.
  split; intro H.
  - apply Qnot_le_lt. intro Hle. apply Qle_bool_iff in Hle. congruence.
  - destruct (Qle_bool x y) eqn:E; [|reflexivity].
    apply Qle_bool_iff in E. exfalso. apply (Qlt_not_le _ _ H E).
Qed.

Lemma leb_fin (x y : Q) : (Fin x <=? Fin y) = true <-> (x <= y)%Q.
Proof. simpl. apply Qle_bool_iff. Qed.

Lemma ltb_fin (x y : Q) : (Fin x <? Fin y) = true <-> (x < y)%Q.
Proof.
  simpl. rewrite negb_true_iff. apply Qle_bool_false.
Qed.

Lemma gtb_fin (x y : Q) : (Fin x >? Fin y) = true <-> (y < x)%Q.
Proof. unfold gtb. apply ltb_fin. Qed.

Lemma gtb_fin_false (x y : Q) : (Fin x >? Fin y) = false <-> (x <= y)%Q.
Proof.
  unfold gtb. simpl. rewrite negb_false_iff. apply Qle_bool_iff.
Qed.

(** Two representations of one rational give one number after any
    operation, since results are reduced. *)
Lemma Fin_Qred_eq (x y : Q) : (x == y)%Q -> Fin (Qred x) = Fin (Qred y).
Proof. intro H. f_equal. now apply Qred_complete. Qed.

Lemma round_fin (x : Q) : round (Fin x) = of_Z (Qfloor (x + (1 # 2))).
Proof. reflexivity. Qed.

Lemma round_finite (a : num) : finite a -> finite (round a).
Proof. destruct a; try discriminate. reflexivity. Qed.

Lemma round_compat (x y : Q) : (x == y)%Q -> round (Fin x) = round (Fin y).
Proof. intro H. rewrite !round_fin. now rewrite H. Qed.

Lemma round_mono (x y : Q) :
  (x <= y)%Q -> (round (Fin x) <=? round (Fin y)) = true.
Proof.
  intro H. rewrite !round_fin. unfold of_Z. apply leb_fin.
  rewrite <- Zle_Qle. apply Qfloor_resp_le. lra.
Qed.

(** [Math.round] moves a number by at most one half. *)
Lemma round_lower (x : Q) : (x - (1 # 2) < inject_Z (Qfloor (x + (1 # 2))))%Q.
Proof.
  pose proof (Qlt_floor (x + (1 # 2))) as H.
  rewrite inject_Z_plus in H. change (inject_Z 1) with 1%Q in H. lra.
Qed.

Lemma round_upper (x : Q) : (inject_Z (Qfloor (x + (1 # 2))) <= x + (1 # 2))%Q.
Proof. apply Qfloor_le. Qed.

Lemma round_within_half (x : Q) :
  within (Fin (1 # 2)) (round (Fin x)) (Fin x) = true.
Proof.
  unfold within. rewrite round_fin. unfold of_Z. simpl.
  pose proof (round_lower x). pose proof (round_upper x).
  apply andb_true_iff; split; apply Qle_bool_iff; rewrite Qred_correct; lra.
Qed.

Lemma inject_Z_minus (x y : Z) :
  inject_Z (x - y) = (inject_Z x - inject_Z y)%Q.
Proof.
  unfold Z.sub, Qminus. now rewrite inject_Z_plus, inject_Z_opp.
Qed.

(** Rounding a sum against the sum of the roundings: the integers differ by
    at most one. *)
Lemma Z_between (z : Z) : (-2 < inject_Z z)%Q -> (inject_Z z < 2)%Q ->
  (-1 <= z <= 1)%Z.
Proof.
  intros H1 H2.
  change (-2)%Q with (inject_Z (-2)) in H1.
  change 2%Q with (inject_Z 2) in H2.
  rewrite <- Zlt_Qlt in H1, H2. lia.
Qed.

Lemma round_add_within (x y s : Q) :
  (s == x + y)%Q ->
  within 1 (round (Fin s)) (round (Fin x) + round (Fin y)) = true.
Proof.
  intro Hs. unfold within. rewrite !round_fin. unfold of_Z. simpl.
  pose proof (round_lower x). pose proof (round_upper x).
  pose proof (round_lower y). pose proof (round_upper y).
  pose proof (round_lower s). pose proof (round_upper s).
  set (rx := Qfloor (x + (1 # 2))) in *.
  set (ry := Qfloor (y + (1 # 2))) in *.
  set (rs := Qfloor (s + (1 # 2))) in *.
  assert (Hz : (-1 <= rs - (rx + ry) <= 1)%Z).
  { apply Z_between; rewrite inject_Z_minus, inject_Z_plus; lra. }
  apply andb_true_iff; split; apply Qle_bool_iff;
    rewrite !Qred_correct; rewrite <- ?inject_Z_plus, <- inject_Z_minus;
    change 1%Q with (inject_Z 1); rewrite <- Zle_Qle; lia.
Qed.

Lemma round_sub_within (x y d : Q) :
  (d == x - y)%Q ->
  within 1 (round (Fin d)) (round (Fin x) - round (Fin y)) = true.
Proof.
  intro Hd. unfold within. rewrite !round_fin. unfold of_Z. simpl.
  pose proof (round_lower x). pose proof (round_upper x).
  pose proof (round_lower y). pose proof (round_upper y).
  pose proof (round_lower d). pose proof (round_upper d).
  set (rx := Qfloor (x + (1 # 2))) in *.
  set (ry := Qfloor (y + (1 # 2))) in *.
  set (rd := Qfloor (d + (1 # 2))) in *.
  assert (Hz : (-1 <= rd - (rx - ry) <= 1)%Z).
  { apply Z_between; rewrite !inject_Z_minus; lra. }
  apply andb_true_iff; split; apply Qle_bool_iff;
    rewrite !Qred_correct; rewrite <- !inject_Z_minus;
    change 1%Q with (inject_Z 1); rewrite <- Zle_Qle; lia.
Qed.

End Numbers.

(* ================================================================== *)
(** ** Closure of the finite numbers *)
(* ================================================================== *)

Section FiniteArithmetic.

Lemma finite_add (a b : num) : finite a -> finite b -> finite (a + b).
Proof. destruct a, b; try discriminate. reflexivity. Qed.

Lemma finite_sub (a b : num) : finite a -> finite b -> finite (a - b).
Proof. destruct a, b; try discriminate. reflexivity. Qed.

Lemma finite_mul (a b : num) : finite a -> finite b -> finite (a * b).
Proof. destruct a, b; try discriminate. reflexivity. Qed.

Lemma div_fin_nonzero (x y : Q) :
  ~ (y == 0)%Q -> Fin x / Fin y = Fin (Qred (x / y)).
Proof.
  intro Hy. unfold div. destruct (Qeq_bool y 0) eqn:E; [|reflexivity].
  apply Qeq_bool_iff in E. contradiction.
Qed.

Lemma div_100 (x : Q) : Fin x / 100 = Fin (Qred (x / inject_Z 100)).
Proof. reflexivity. Qed.

Lemma finite_div_100 (a : num) : finite a -> finite (a / 100).
Proof. destruct a; try discriminate. reflexivity. Qed.

Lemma nonneg_add (a b : num) : nonneg a -> nonneg b -> nonneg (a + b).
Proof.
  destruct a, b; simpl; try contradiction. intros Ha Hb.
  rewrite Qred_correct. lra.
Qed.

Lemma nonneg_mul (a b : num) : nonneg a -> nonneg b -> nonneg (a * b).
Proof.
  destruct a, b; simpl; try contradiction. intros Ha Hb.
  rewrite Qred_correct. now apply Qmult_le_0_compat.
Qed.

Lemma nonneg_div_100 (a : num) : nonneg a -> nonneg (a / 100).
Proof.
  destruct a as [q| | |]; intro Ha; try contradiction.
  rewrite div_100. simpl in *. rewrite Qred_correct.
  change (inject_Z 100) with 100%Q.
  assert (E : (q / 100 == q * (1 # 100))%Q) by field. rewrite E. lra.
Qed.

Lemma nonneg_0 : nonneg 0.
Proof. simpl. apply Qle_refl. Qed.

Lemma nonneg_1 : nonneg 1.
Proof. simpl. discriminate. Qed.

Lemma zero_mul (a : num) : finite a -> 0 * a = 0.
Proof.
  destruct a; try discriminate. intros _.
  change (Fin (Qred (inject_Z 0 * q)) = Fin (inject_Z 0)).
  change (inject_Z 0) with (Qred 0) at 2. apply Fin_Qred_eq.
  change (inject_Z 0) with 0%Q. ring.
Qed.

Lemma le_add_nonneg (a b : num) : finite a -> nonneg b -> le a (a + b).
Proof.
  destruct a, b; simpl; try discriminate; try contradiction.
  intros _ Hb. rewrite Qred_correct. lra.
Qed.

Lemma round_le (a b : num) : le a b -> (round a <=? round b) = true.
Proof.
  destruct a, b; simpl; try contradiction. apply round_mono.
Qed.

End FiniteArithmetic.

(** From here on the operations on numbers are used through their lemmas. *)
#[local] Arguments add : simpl never.
#[local] Arguments sub : simpl never.
#[local] Arguments mul : simpl never.
#[local] Arguments div : simpl never.
#[local] Arguments round : simpl never.
#[local] Arguments leb : simpl never.
#[local] Arguments ltb : simpl never.
#[local] Arguments Js.max : simpl never.
#[local] Arguments of_Z : simpl never.

(* ================================================================== *)
(** ** The growth schedule *)
(* ================================================================== *)

Section Schedule.

Lemma years_from_length (y : Z) (n : nat) : length (years_from y n) = n.
Proof. revert y. induction n; intros; simpl; auto. Qed.

Lemma years_from_In (n : nat) (y k : Z) :
  In k (years_from y n) -> (y <= k < y + Z.of_nat n)%Z.
Proof.
  revert y. induction n as [|n IH]; intros y H; simpl in H.
  - contradiction.
  - destruct H as [<- | H]; [lia|]. apply IH in H. lia.
Qed.

Lemma years_from_nth (n : nat) (y : Z) (k : nat) :
  (k < n)%nat -> nth_error (years_from y n) k = Some (y + Z.of_nat k)%Z.
Proof.
  revert y k. induction n as [|n IH]; intros y k Hk; [lia|].
  destruct k as [|k]; simpl.
  - f_equal. lia.
  - rewrite IH by lia. f_equal. lia.
Qed.

Lemma raw_rate_schedule_rate (initialRate terminalRate : num) (y : Z) :
  raw_rate initialRate terminalRate ((initialRate - terminalRate) / 9) y
  = schedule_rate initialRate terminalRate y.
Proof.
  unfold raw_rate, schedule_rate.
  destruct (Z.ltb_spec y 10), (Z.leb_spec 10 y); try lia; reflexivity.
Qed.

(** The loop appends one entry per value of [year], in order. *)
Lemma growth_loop_map (n : nat) (initialRate terminalRate decay : num)
    (y : Z) (rates : list Entry.t) :
  growth_loop n initialRate terminalRate decay y rates
  = rates ++ map (fun k => Entry.mk k
                   (round2 (raw_rate initialRate terminalRate decay k)))
               (years_from y n).
Proof.
  revert y rates. induction n as [|n IH]; intros y rates; simpl.
  - now rewrite app_nil_r.
  - rewrite IH, <- app_assoc. reflexivity.
Qed.

Lemma generateGrowthRates_map (initialRate terminalRate : num) (years : Z) :
  generateGrowthRates initialRate terminalRate years
  = map (fun y => Entry.mk y (round2 (schedule_rate initialRate terminalRate y)))
        (years_from 1 (Z.to_nat years)).
Proof.
  unfold generateGrowthRates. rewrite growth_loop_map. simpl.
  apply map_ext. intro y. now rewrite raw_rate_schedule_rate.
Qed.

Lemma generateGrowthRates_length (initialRate terminalRate : num) (years : Z) :
  length (generateGrowthRates initialRate terminalRate years) = Z.to_nat years.
Proof.
  rewrite generateGrowthRates_map, length_map. apply years_from_length.
Qed.

Lemma round2_compat (x y : Q) :
  (x == y)%Q -> round2 (Fin x) = round2 (Fin y).
Proof.
  intro H. unfold round2. f_equal.
  change (round (Fin (Qred (x * inject_Z 100)))
          = round (Fin (Qred (y * inject_Z 100)))).
  apply round_compat. rewrite !Qred_correct. now rewrite H.
Qed.

Lemma decay_below_terminal (a b k : Q) :
  (a <= b)%Q -> (0 <= k)%Q -> (k <= 8)%Q ->
  (a - (a - b) / inject_Z 9 * k <= b)%Q.
Proof.
  intros Hab H0 H8. change (inject_Z 9) with 9%Q.
  assert (Hp : (0 <= (b - a) * (9 - k))%Q).
  { apply Qmult_le_0_compat; lra. }
  assert (E : (a - (a - b) / 9 * k == b - (1 # 9) * ((b - a) * (9 - k)))%Q)
    by field.
  rewrite E. generalize dependent ((b - a) * (9 - k))%Q. intros p Hp _. lra.
Qed.

(** With [initial <= terminal] the clamp selects the terminal rate (or an
    equal number) in each of the first nine years. *)
Lemma schedule_rate_clamped (a b : Q) (y : Z) :
  (a <= b)%Q -> (1 <= y)%Z ->
  exists c, schedule_rate (Fin a) (Fin b) y = Fin c /\ (c == b)%Q.
Proof.
  intros Hab Hy. unfold schedule_rate.
  destruct (Z.leb_spec 10 y) as [Hge|Hlt].
  - exists b. split; reflexivity.
  - change ((Fin a - Fin b) / 9)
      with (Fin (Qred (Qred (a - b) / inject_Z 9))).
    change (Fin a - Fin (Qred (Qred (a - b) / inject_Z 9)) * of_Z (y - 1))
      with (Fin (Qred (a - Qred (Qred (Qred (a - b) / inject_Z 9)
                                  * inject_Z (y - 1))))).
    set (c := Qred (a - Qred (Qred (Qred (a - b) / inject_Z 9)
                               * inject_Z (y - 1)))).
    assert (Hc : (c <= b)%Q).
    { unfold c. rewrite !Qred_correct. apply decay_below_terminal; trivial.
      - change 0%Q with (inject_Z 0). rewrite <- Zle_Qle. lia.
      - change 8%Q with (inject_Z 8). rewrite <- Zle_Qle. lia. }
    unfold Js.max. destruct (Qle_bool b c) eqn:E.
    + exists c. split; [reflexivity|]. apply Qle_bool_iff in E.
      apply Qle_antisym; assumption.
    + exists b. split; reflexivity.
Qed.

End Schedule.

(** **** C6
    [generateGrowthRates(60, 15, 20)] is the 20-entry schedule for years
    1..20 that starts at 60, loses 5 a year down to 15 in year 10 and stays
    at 15 through year 20; and for all arguments the entry of year [y]
    carries, rounded to 2 decimals, the terminal rate when [y >= 10] and
    [max(terminalRate, initialRate - decay * (y - 1))] otherwise, with
    [decay = (initialRate - terminalRate) / 9]. *)
Theorem generateGrowthRates_schedule :
  generateGrowthRates 60 15 20
  = [ Entry.mk 1 60; Entry.mk 2 55; Entry.mk 3 50; Entry.mk 4 45;
      Entry.mk 5 40; Entry.mk 6 35; Entry.mk 7 30; Entry.mk 8 25;
      Entry.mk 9 20; Entry.mk 10 15; Entry.mk 11 15; Entry.mk 12 15;
      Entry.mk 13 15; Entry.mk 14 15; Entry.mk 15 15; Entry.mk 16 15;
      Entry.mk 17 15; Entry.mk 18 15; Entry.mk 19 15; Entry.mk 20 15 ]
  /\ (60 - 15) / 9 = 5
  /\ forall (initialRate terminalRate : num) (years : Z),
       length (generateGrowthRates initialRate terminalRate years)
       = Z.to_nat years
       /\ forall k : nat, (k < Z.to_nat years)%nat ->
            nth_error (generateGrowthRates initialRate terminalRate years) k
            = Some (Entry.mk (Z.of_nat k + 1)
                     (round2 (schedule_rate initialRate terminalRate
                                (Z.of_nat k + 1)))).
Proof.
  split; [vm_compute; reflexivity|].
  split; [vm_compute; reflexivity|].
  intros initialRate terminalRate years. split.
  - apply generateGrowthRates_length.
  - intros k Hk. rewrite generateGrowthRates_map.
    rewrite nth_error_map, years_from_nth by assumption.
    replace (1 + Z.of_nat k)%Z with (Z.of_nat k + 1)%Z by lia. reflexivity.
Qed.



(* ================================================================== *)
(** ** The loop computes the recurrences *)
(* ================================================================== *)

Section RecurrenceFacts.

Variable inputs : Inputs.t.

Lemma acc_after_0 : acc_after inputs 0 = Ok (initial_acc inputs).
Proof. reflexivity. Qed.

(** One pass of the loop body takes the recurrences from [k] to [k + 1] and
    pushes [row_of_year inputs k]. *)
Lemma year_step_recurrence (k : nat) (acc : Acc.t) :
  acc_after inputs k = Ok acc ->
  year_step inputs (Z.of_nat k) acc
  = let* row := row_of_year inputs k in
    let* acc' := acc_after inputs (S k) in
    Ok (row, acc').
Proof.
  unfold acc_after, row_of_year, year_step. simpl price_after.
  destruct (price_after inputs k) as [price|e]; simpl; [|discriminate].
  intros [= <-]. simpl. fold (growth_of_year inputs k).
  destruct (growth_of_year inputs k) as [g|e]; reflexivity.
Qed.

(** The loop from pass [k] on: the rows pushed are those of the recurrences,
    in order. *)
Lemma projection_loop_rows (n k : nat) (acc : Acc.t) (pre rows : list Row.t) :
  acc_after inputs k = Ok acc ->
  projection_loop n inputs (Z.of_nat k) acc pre = Ok rows ->
  exists rest,
    rows = pre ++ rest /\ length rest = n /\
    forall j, (j < n)%nat -> nth_error rest j = to_option (row_of_year inputs (k + j)).
Proof.
  revert k acc pre. induction n as [|n IH]; intros k acc pre Hacc Hloop.
  - simpl in Hloop. injection Hloop as <-. exists []. rewrite app_nil_r.
    repeat split. intros j Hj. lia.
  - simpl in Hloop. rewrite (year_step_recurrence k Hacc) in Hloop.
    destruct (row_of_year inputs k) as [row|e] eqn:Hrow; [|discriminate].
    destruct (acc_after inputs (S k)) as [acc'|e] eqn:Hacc'; [|discriminate].
    simpl in Hloop.
    replace (Z.of_nat k + 1)%Z with (Z.of_nat (S k)) in Hloop by lia.
    destruct (IH (S k) acc' (pre ++ [row]) Hacc' Hloop)
      as (rest & -> & Hlen & Hnth).
    exists (row :: rest). rewrite <- app_assoc. simpl. repeat split.
    + now rewrite Hlen.
    + intros [|j] Hj; simpl.
      * now rewrite Nat.add_0_r, Hrow.
      * rewrite Hnth by lia. now replace (k + S j)%nat with (S k + j)%nat by lia.
Qed.

End RecurrenceFacts.

(** Every row of [calculateProjections] is the row of the recurrences for
    its position, and there is one row per year. *)
Lemma calculateProjections_rows (inputs : Inputs.t) (rows : list Row.t) :
  calculateProjections inputs = Ok rows ->
  length rows = Z.to_nat (Inputs.years inputs) /\
  forall k row, nth_error rows k = Some row -> row_of_year inputs k = Ok row.
Proof.
  unfold calculateProjections. intro H.
  destruct (@projection_loop_rows inputs _ 0 _ [] rows (acc_after_0 inputs) H)
    as (rest & -> & Hlen & Hnth).
  simpl. split; [assumption|]. intros k row Hk.
  assert (Hlt : (k < Z.to_nat (Inputs.years inputs))%nat).
  { rewrite <- Hlen. apply nth_error_Some. congruence. }
  specialize (Hnth k Hlt). simpl in Hnth. rewrite Hk in Hnth.
  destruct (row_of_year inputs k); simpl in Hnth; congruence.
Qed.

(* ================================================================== *)
(** ** Rows of the projection *)
(* ================================================================== *)

Lemma default_rows_ok : calculateProjections default_inputs = Ok default_rows.
Proof. vm_compute. reflexivity. Qed.

(** **** C2
    For every row of the projection, [portfolioValue] is the rounded product
    of the end-of-year price and [bitcoinAmount], the end-of-year price
    being the start-of-year price times [1 + growthRate/100], while
    [ltvRatio] is the rounded quotient of the total debt by the
    start-of-year price times [bitcoinAmount], times 100. *)
Theorem ltv_on_start_price_portfolio_on_end_price
    (inputs : Inputs.t) (rows : list Row.t) (k : nat) (row : Row.t) :
  calculateProjections inputs = Ok rows ->
  nth_error rows k = Some row ->
  exists price growthRate : num,
    price_after inputs k = Ok price /\
    growth_of_year inputs k = Ok growthRate /\
    let priceEnd := price * (1 + growthRate / 100) in
    price_after inputs (S k) = Ok priceEnd /\
    Row.bitcoinPriceStart row = round price /\
    Row.bitcoinPriceEnd row = round priceEnd /\
    Row.portfolioValue row
    = round (priceEnd * Inputs.bitcoinAmount inputs) /\
    Row.totalDebt row = round (debt_after inputs (S k)) /\
    Row.ltvRatio row
    = round (debt_after inputs (S k)
             / (price * Inputs.bitcoinAmount inputs) * 100).
Proof.
  intros Hrows Hrow.
  apply calculateProjections_rows in Hrows. destruct Hrows as [_ Hrows].
  apply Hrows in Hrow. unfold row_of_year in Hrow.
  destruct (price_after inputs k) as [price|e] eqn:Hp; [|discriminate].
  destruct (growth_of_year inputs k) as [g|e] eqn:Hg; [|discriminate].
  simpl in Hrow. injection Hrow as <-.
  exists price, g. simpl. rewrite Hp, Hg. simpl. repeat split; reflexivity.
Qed.

Lemma ltv_on_start_price_portfolio_on_end_price_witness :
  calculateProjections default_inputs = Ok default_rows /\
  nth_error default_rows 1 = Some default_row_2 /\
  exists price growthRate : num,
    price_after default_inputs 1 = Ok price /\
    growth_of_year default_inputs 1 = Ok growthRate /\
    let priceEnd := price * (1 + growthRate / 100) in
    price_after default_inputs 2 = Ok priceEnd /\
    Row.bitcoinPriceStart default_row_2 = round price /\
    Row.bitcoinPriceEnd default_row_2 = round priceEnd /\
    Row.portfolioValue default_row_2
    = round (priceEnd * Inputs.bitcoinAmount default_inputs) /\
    Row.totalDebt default_row_2 = round (debt_after default_inputs 2) /\
    Row.ltvRatio default_row_2
    = round (debt_after default_inputs 2
             / (price * Inputs.bitcoinAmount default_inputs) * 100).
Proof.
  split; [exact default_rows_ok|]. split; [reflexivity|].
  apply (@ltv_on_start_price_portfolio_on_end_price
           default_inputs default_rows 1 default_row_2).
  - exact default_rows_ok.
  - reflexivity.
Defined.

(** The two prices give different ratios: in the second default year the
    ratio on the start price is 68 percent, on the end price it would be
    44. *)
Example ltv_differs_on_end_price :
  Row.ltvRatio default_row_2 = 68 /\
  round (debt_after default_inputs 2
         / (Row.portfolioValue default_row_2) * 100) = 44.
Proof. split; vm_compute; reflexivity. Qed.

(** **** C3
    In every simulated year the interest added is the rate applied to what
    had been borrowed before that year's expenses are drawn (the balance the
    previous row shows), and the expenses are added to the balance after
    that; so, the interest rate being a finite number, the first row has
    [totalInterest = 0]. *)
Theorem interest_accrues_before_borrowing
    (inputs : Inputs.t) (rows : list Row.t) (k : nat) (row : Row.t) :
  calculateProjections inputs = Ok rows ->
  nth_error rows k = Some row ->
  let before := borrowed_after inputs k in
  Row.totalInterest row
  = round (interest_after inputs k
           + before * (Inputs.interestRate inputs / 100)) /\
  Row.totalBorrowed row = round (before + expenses_after inputs k) /\
  (forall k' prev, k = S k' -> nth_error rows k' = Some prev ->
     Row.totalBorrowed prev = round before) /\
  (k = 0%nat -> finite (Inputs.interestRate inputs) ->
     before = 0 /\ Row.totalInterest row = 0).
Proof.
  intros Hrows Hrow.
  apply calculateProjections_rows in Hrows. destruct Hrows as [_ Hrows].
  pose proof (Hrows _ _ Hrow) as Hk. unfold row_of_year in Hk.
  destruct (price_after inputs k) as [price|e]; [|discriminate].
  destruct (growth_of_year inputs k) as [g|e]; [|discriminate].
  simpl in Hk. injection Hk as <-. simpl.
  split; [reflexivity|]. split; [reflexivity|]. split.
  - intros k' prev -> Hprev. apply Hrows in Hprev.
    unfold row_of_year in Hprev.
    destruct (price_after inputs k') as [price'|e]; [|discriminate].
    destruct (growth_of_year inputs k') as [g'|e]; [|discriminate].
    simpl in Hprev. injection Hprev as <-. reflexivity.
  - intros -> Hfin. split; [reflexivity|]. simpl.
    rewrite zero_mul by now apply finite_div_100. reflexivity.
Qed.

Lemma interest_accrues_before_borrowing_witness :
  calculateProjections default_inputs = Ok default_rows /\
  nth_error default_rows 0 = Some default_row_1 /\
  Row.totalBorrowed default_row_1 = 150000 /\
  Row.totalInterest default_row_1 = 0.
Proof.
  split; [exact default_rows_ok|]. split; [reflexivity|].
  destruct (@interest_accrues_before_borrowing
              default_inputs default_rows 0 default_row_1)
    as (_ & Hb & _ & Hfirst).
  - exact default_rows_ok.
  - reflexivity.
  - split; [exact Hb|]. apply Hfirst; reflexivity.
Defined.

(* ================================================================== *)
(** ** Finite inputs give finite accumulators *)
(* ================================================================== *)

Section Finiteness.

Variable inputs : Inputs.t.

Lemma last_In {A} (l : list A) (d : A) : In (last l d) (d :: l).
Proof.
  revert d. induction l as [|x l IH]; intro d.
  - now left.
  - destruct l as [|y l]; [right; now left|].
    change (last (x :: y :: l) d) with (last (y :: l) d).
    destruct (IH d) as [H|H]; [now left|right; now right].
Qed.

(** Whatever rate the lookup returns is the rate of some entry. *)
Lemma growth_rate_for_In (growthRates : list Entry.t) (y : Z) (g : num) :
  growth_rate_for growthRates y = Ok g ->
  exists e, In e growthRates /\ Entry.rate e = g.
Proof.
  assert (Hlast : last_rate growthRates = Ok g ->
                  exists e, In e growthRates /\ Entry.rate e = g).
  { unfold last_rate. destruct growthRates as [|e rest]; [discriminate|].
    intros [= <-]. exists (last rest e). split; [apply last_In|reflexivity]. }
  unfold growth_rate_for.
  destruct (find _ growthRates) as [e|] eqn:Hfind; [|exact Hlast].
  destruct (truthy (Entry.rate e)); [|exact Hlast].
  intros [= <-]. exists e. split; [|reflexivity].
  now apply find_some in Hfind.
Qed.

Hypothesis Hfinite : all_finite inputs = true.

Lemma all_finite_inv :
  finite (Inputs.bitcoinAmount inputs) /\
  finite (Inputs.bitcoinPrice inputs) /\
  finite (Inputs.interestRate inputs) /\
  finite (Inputs.inflationRate inputs) /\
  finite (Inputs.annualExpenses inputs) /\
  forall e, In e (Inputs.growthRates inputs) -> finite (Entry.rate e).
Proof.
  unfold all_finite in Hfinite. rewrite !andb_true_iff in Hfinite.
  destruct Hfinite as [[[[[H1 H2] H3] H4] H5] H6].
  repeat split; try assumption.
  intros e He. rewrite forallb_forall in H6. now apply H6.
Qed.

Lemma expenses_after_finite (k : nat) : finite (expenses_after inputs k).
Proof.
  destruct all_finite_inv as (_ & _ & _ & Hinf & Hexp & _).
  induction k as [|k IH]; simpl; [assumption|].
  apply finite_mul; [assumption|].
  apply finite_add; [reflexivity|now apply finite_div_100].
Qed.

Lemma borrowed_after_finite (k : nat) : finite (borrowed_after inputs k).
Proof.
  induction k as [|k IH]; simpl; [reflexivity|].
  apply finite_add; [assumption|apply expenses_after_finite].
Qed.

Lemma interest_after_finite (k : nat) : finite (interest_after inputs k).
Proof.
  destruct all_finite_inv as (_ & _ & Hint & _).
  induction k as [|k IH]; simpl; [reflexivity|].
  apply finite_add; [assumption|].
  apply finite_mul; [apply borrowed_after_finite|now apply finite_div_100].
Qed.

Lemma growth_of_year_finite (k : nat) (g : num) :
  growth_of_year inputs k = Ok g -> finite g.
Proof.
  destruct all_finite_inv as (_ & _ & _ & _ & _ & Hrates).
  intro H. apply growth_rate_for_In in H. destruct H as (e & He & <-).
  now apply Hrates.
Qed.

Lemma price_after_finite (k : nat) (price : num) :
  price_after inputs k = Ok price -> finite price.
Proof.
  destruct all_finite_inv as (_ & Hprice & _).
  revert price. induction k as [|k IH]; simpl; intros price H.
  - now injection H as <-.
  - destruct (price_after inputs k) as [p|e]; [|discriminate].
    destruct (growth_of_year inputs k) as [g|e] eqn:Hg; [|discriminate].
    simpl in H. injection H as <-.
    apply finite_mul; [now apply IH|].
    apply finite_add; [reflexivity|].
    apply finite_div_100. now apply growth_of_year_finite with k.
Qed.

End Finiteness.



(** The identities are not exact on the rounded fields: in the default
    table the debt of year 8 is one more, that of year 10 one less, than
    the rounded principal plus the rounded interest. *)
Example accounting_identities_off_by_one :
  map (fun row => Row.totalDebt row
                  - (Row.totalBorrowed row + Row.totalInterest row))
      (firstn 3 (skipn 7 default_rows))
  = [1; 0; -1].
Proof. vm_compute. reflexivity. Qed.

(* ================================================================== *)
(** ** Debt only grows *)
(* ================================================================== *)

Section Monotone.

Variable inputs : Inputs.t.
Hypothesis Hexpenses : nonneg (Inputs.annualExpenses inputs).
Hypothesis Hinflation : nonneg (Inputs.inflationRate inputs).
Hypothesis Hinterest : nonneg (Inputs.interestRate inputs).

Lemma expenses_after_nonneg (k : nat) : nonneg (expenses_after inputs k).
Proof.
  induction k as [|k IH]; simpl; [assumption|].
  apply nonneg_mul; [assumption|].
  apply nonneg_add; [apply nonneg_1|now apply nonneg_div_100].
Qed.

Lemma borrowed_after_nonneg (k : nat) : nonneg (borrowed_after inputs k).
Proof.
  induction k as [|k IH]; simpl; [apply nonneg_0|].
  apply nonneg_add; [assumption|apply expenses_after_nonneg].
Qed.

Lemma interest_after_nonneg (k : nat) : nonneg (interest_after inputs k).
Proof.
  induction k as [|k IH]; simpl; [apply nonneg_0|].
  apply nonneg_add; [assumption|].
  apply nonneg_mul; [apply borrowed_after_nonneg|now apply nonneg_div_100].
Qed.

Lemma borrowed_after_le (k : nat) :
  le (borrowed_after inputs k) (borrowed_after inputs (S k)).
Proof.
  simpl. apply le_add_nonneg.
  - apply nonneg_finite, borrowed_after_nonneg.
  - apply expenses_after_nonneg.
Qed.

Lemma interest_after_le (k : nat) :
  le (interest_after inputs k) (interest_after inputs (S k)).
Proof.
  simpl. apply le_add_nonneg.
  - apply nonneg_finite, interest_after_nonneg.
  - apply nonneg_mul; [apply borrowed_after_nonneg|now apply nonneg_div_100].
Qed.

End Monotone.

Lemma row_of_year_debt (inputs : Inputs.t) (k : nat) (row : Row.t) :
  row_of_year inputs k = Ok row ->
  Row.totalBorrowed row = round (borrowed_after inputs (S k)) /\
  Row.totalInterest row = round (interest_after inputs (S k)).
Proof.
  unfold row_of_year.
  destruct (price_after inputs k) as [price|e]; [|discriminate].
  destruct (growth_of_year inputs k) as [g|e]; [|discriminate].
  simpl. intros [= <-]. split; reflexivity.
Qed.



(* ================================================================== *)
(** ** No argument is validated *)
(* ================================================================== *)

Section Totality.

Variable inputs : Inputs.t.
Hypothesis Hschedule : Inputs.growthRates inputs <> [].

(** On a schedule with at least one entry the lookup always yields a
    rate. *)
Lemma growth_rate_for_total (y : Z) :
  exists g, growth_rate_for (Inputs.growthRates inputs) y = Ok g.
Proof.
  unfold growth_rate_for, last_rate.
  destruct (Inputs.growthRates inputs) as [|e rest] eqn:E; [contradiction|].
  destruct (find _ (e :: rest)) as [g|]; [|eauto].
  destruct (truthy (Entry.rate g)); eauto.
Qed.

Lemma price_after_total (k : nat) : exists p, price_after inputs k = Ok p.
Proof.
  induction k as [|k [p IH]]; simpl; [eauto|].
  rewrite IH. destruct (growth_rate_for_total (Z.of_nat k + 1)) as [g Hg].
  unfold growth_of_year. rewrite Hg. simpl. eauto.
Qed.

Lemma acc_after_total (k : nat) : exists acc, acc_after inputs k = Ok acc.
Proof.
  unfold acc_after. destruct (price_after_total k) as [p ->]. simpl. eauto.
Qed.

Lemma row_of_year_total (k : nat) : exists row, row_of_year inputs k = Ok row.
Proof.
  unfold row_of_year, growth_of_year.
  destruct (price_after_total k) as [p ->].
  destruct (growth_rate_for_total (Z.of_nat k + 1)) as [g ->].
  simpl. eauto.
Qed.

Lemma projection_loop_total (n k : nat) (acc : Acc.t) (pre : list Row.t) :
  acc_after inputs k = Ok acc ->
  exists rows, projection_loop n inputs (Z.of_nat k) acc pre = Ok rows.
Proof.
  revert k acc pre. induction n as [|n IH]; intros k acc pre Hacc; simpl.
  - eauto.
  - rewrite (year_step_recurrence inputs k Hacc).
    destruct (row_of_year_total k) as [row ->].
    destruct (acc_after_total (S k)) as [acc' Hacc']. rewrite Hacc'. simpl.
    replace (Z.of_nat k + 1)%Z with (Z.of_nat (S k)) by lia.
    now apply IH.
Qed.

Lemma calculateProjections_total :
  exists rows, calculateProjections inputs = Ok rows.
Proof.
  unfold calculateProjections. apply (projection_loop_total _ 0).
  apply acc_after_0.
Qed.

End Totality.

(** Without years to simulate there is no lookup, hence no exception. *)
Lemma calculateProjections_no_years (inputs : Inputs.t) :
  (Inputs.years inputs <= 0)%Z -> calculateProjections inputs = Ok [].
Proof.
  intro H. unfold calculateProjections.
  replace (Z.to_nat (Inputs.years inputs)) with 0%nat by lia. reflexivity.
Qed.

(* ================================================================== *)
(** ** The rate of a year *)
(* ================================================================== *)

(** An entry for the year with a rate other than [0] and [NaN] is the one
    used. *)
Lemma growth_rate_for_found (growthRates : list Entry.t) (y : Z) (g : Entry.t) :
  find (fun g => (Entry.year g =? y)%Z) growthRates = Some g ->
  truthy (Entry.rate g) = true ->
  growth_rate_for growthRates y = Ok (Entry.rate g).
Proof. intros Hf Ht. unfold growth_rate_for. now rewrite Hf, Ht. Qed.

(** Without an entry for the year the last entry gives the rate. *)
Lemma growth_rate_for_missing (growthRates : list Entry.t) (y : Z) :
  find (fun g => (Entry.year g =? y)%Z) growthRates = None ->
  growth_rate_for growthRates y = last_rate growthRates.
Proof. intros Hf. unfold growth_rate_for. now rewrite Hf. Qed.

(** An entry for the year with rate [0] is passed over for the last
    entry. *)
Lemma growth_rate_for_falsy (growthRates : list Entry.t) (y : Z) (g : Entry.t) :
  find (fun g => (Entry.year g =? y)%Z) growthRates = Some g ->
  truthy (Entry.rate g) = false ->
  growth_rate_for growthRates y = last_rate growthRates.
Proof. intros Hf Ht. unfold growth_rate_for. now rewrite Hf, Ht. Qed.

(** **** C8
    The schedule of [generateGrowthRates(8, -10, 20)] has the entry
    [{ year: 5, rate: 0 }], yet the projection uses the rate of the last
    entry, -10, in year 5: the price falls from 121440 to 109296 in that
    year instead of staying put. *)
Theorem zero_rate_entry_is_passed_over :
  find (fun g => (Entry.year g =? 5)%Z) (Inputs.growthRates falling_inputs)
  = Some (Entry.mk 5 0)
  /\ growth_rate_for (Inputs.growthRates falling_inputs) 5 = Ok (-10)
  /\ exists rows row,
       calculateProjections falling_inputs = Ok rows /\
       nth_error rows 4 = Some row /\
       Row.year row = 5%Z /\
       Row.growthRate row = -10 /\
       Row.bitcoinPriceStart row = 121440 /\
       Row.bitcoinPriceEnd row = 109296.
Proof.
  split; [vm_compute; reflexivity|]. split; [vm_compute; reflexivity|].
  destruct (calculateProjections falling_inputs) as [rows|e] eqn:E;
    [|vm_compute in E; discriminate].
  exists rows, (nth 4 rows (Row.mk 0 0 0 0 0 0 0 0 0 0 0)).
  split; [reflexivity|].
  vm_compute in E. injection E as <-.
  repeat split; vm_compute; reflexivity.
Qed.

(* ================================================================== *)
(** ** The binary search *)
(* ================================================================== *)

Section Search.

Variable inputs : Inputs.t.
Variable maxLTV : num.

Lemma midpoint_eq (l h : Q) : (midpoint l h == (l + h) * (1 # 2))%Q.
Proof.
  unfold midpoint. rewrite !Qred_correct.
  change (inject_Z 2) with 2%Q. field.
Qed.

Lemma pow2_pos (n : nat) : (0 < inject_Z (2 ^ Z.of_nat n))%Q.
Proof.
  change 0%Q with (inject_Z 0). rewrite <- Zlt_Qlt.
  apply Z.pow_pos_nonneg; lia.
Qed.

Lemma pow2_succ (n : nat) :
  (inject_Z (2 ^ Z.of_nat (S n)) == 2 * inject_Z (2 ^ Z.of_nat n))%Q.
Proof.
  rewrite Nat2Z.inj_succ, Z.pow_succ_r by lia.
  now rewrite inject_Z_mult.
Qed.

(** The width is at most 100 after [halvings w] halvings. *)
Lemma halvings_enough (w : Q) :
  (w <= 100 * inject_Z (2 ^ Z.of_nat (halvings w)))%Q.
Proof.
  unfold halvings. set (c := Qceiling (w / inject_Z 100)).
  assert (Hc : (w / inject_Z 100 <= inject_Z c)%Q) by apply Qle_ceiling.
  assert (Hp : (c <= 2 ^ Z.log2_up c)%Z).
  { destruct (Z_lt_le_dec 1 c) as [H|H].
    - apply Z.log2_up_spec. assumption.
    - rewrite Z.log2_up_eqn0 by assumption. simpl. lia. }
  rewrite Z2Nat.id by apply Z.log2_up_nonneg.
  rewrite Zle_Qle in Hp.
  change (inject_Z 100) with 100%Q in Hc.
  assert (E : (w == 100 * (w / 100))%Q) by field.
  rewrite E. generalize dependent (w / 100)%Q. intros q Hq _. lra.
Qed.

Lemma search_loop_S (fuel : nat) (low high opt : num) :
  search_loop (S fuel) inputs maxLTV low high opt
  = if high - low >? PRECISION then
      let mid := (low + high) / 2 in
      match calculateProjections (Inputs.with_annualExpenses inputs mid) with
      | Throw e => Some (Throw e)
      | Ok projections =>
          if maxLTVInProjections projections <=? maxLTV
          then search_loop fuel inputs maxLTV mid high mid
          else search_loop fuel inputs maxLTV low mid opt
      end
    else Some (Ok opt).
Proof. reflexivity. Qed.

Lemma search_loop_exit (fuel : nat) (l h : Q) (opt : num) :
  (h - l <= 100)%Q ->
  search_loop (S fuel) inputs maxLTV (Fin l) (Fin h) opt = Some (Ok opt).
Proof.
  intro H. rewrite search_loop_S.
  assert (E : (Fin h - Fin l >? PRECISION) = false).
  { apply gtb_fin_false. rewrite Qred_correct. exact H. }
  now rewrite E.
Qed.

Lemma search_loop_step (fuel : nat) (l h : Q) (opt : num) (rows : list Row.t) :
  (100 < h - l)%Q ->
  calculateProjections
    (Inputs.with_annualExpenses inputs (Fin (midpoint l h))) = Ok rows ->
  search_loop (S fuel) inputs maxLTV (Fin l) (Fin h) opt
  = if maxLTVInProjections rows <=? maxLTV
    then search_loop fuel inputs maxLTV
           (Fin (midpoint l h)) (Fin h) (Fin (midpoint l h))
    else search_loop fuel inputs maxLTV (Fin l) (Fin (midpoint l h)) opt.
Proof.
  intros H Hrows. rewrite search_loop_S.
  assert (E : (Fin h - Fin l >? PRECISION) = true).
  { apply gtb_fin. rewrite Qred_correct. exact H. }
  rewrite E.
  change ((Fin l + Fin h) / 2) with (Fin (midpoint l h)).
  cbv zeta. now rewrite Hrows.
Qed.

Hypothesis Hno_throw :
  forall e, exists rows,
    calculateProjections (Inputs.with_annualExpenses inputs e) = Ok rows.

(** The loop ends within [n + 1] passes when the interval is at most
    [100 * 2^n] wide, and it ends with a value that is [found]. *)
Lemma search_loop_found (n : nat) :
  forall (fuel : nat) (l h : Q) (opt : num),
    (n < fuel)%nat ->
    (h - l <= 100 * inject_Z (2 ^ Z.of_nat n))%Q ->
    (0 <= l)%Q ->
    found inputs maxLTV opt ->
    exists opt',
      search_loop fuel inputs maxLTV (Fin l) (Fin h) opt = Some (Ok opt') /\
      found inputs maxLTV opt'.
Proof.
  induction n as [|n IH]; intros fuel l h opt Hfuel Hw Hl Hopt;
    (destruct fuel as [|fuel]; [lia|]).
  - exists opt. split; [|assumption]. apply search_loop_exit.
    change (inject_Z (2 ^ Z.of_nat 0)) with 1%Q in Hw. lra.
  - destruct (Qlt_le_dec 100 (h - l)) as [Hgt|Hle].
    + destruct (Hno_throw (Fin (midpoint l h))) as [rows Hrows].
      rewrite (search_loop_step fuel opt Hgt Hrows).
      pose proof (midpoint_eq l h) as Hm. rewrite pow2_succ in Hw.
      destruct (maxLTVInProjections rows <=? maxLTV) eqn:Htest.
      * apply IH; [lia|rewrite Hm; lra|rewrite Hm; lra|].
        right. split.
        -- simpl. rewrite Hm. lra.
        -- unfold is_feasible. now rewrite Hrows.
      * apply IH; [lia|rewrite Hm; lra|assumption|assumption].
    + exists opt. split; [|assumption]. now apply search_loop_exit.
Qed.

(** When every candidate passes the test the lower bound climbs to within
    100 of the upper bound, which never moves. *)
Lemma search_loop_all_feasible (n : nat) :
  (forall e, is_feasible inputs maxLTV e = true) ->
  forall (fuel : nat) (l h : Q) (opt : num),
    (n < fuel)%nat ->
    (100 < h - l)%Q ->
    (h - l <= 100 * inject_Z (2 ^ Z.of_nat n))%Q ->
    exists o,
      search_loop fuel inputs maxLTV (Fin l) (Fin h) opt = Some (Ok (Fin o)) /\
      ((l + h) * (1 # 2) <= o)%Q /\ (o < h)%Q /\ (h - o <= 100)%Q.
Proof.
  intro Hall.
  induction n as [|n IH]; intros fuel l h opt Hfuel Hgt Hw;
    (destruct fuel as [|fuel]; [lia|]).
  - change (inject_Z (2 ^ Z.of_nat 0)) with 1%Q in Hw. lra.
  - destruct (Hno_throw (Fin (midpoint l h))) as [rows Hrows].
    rewrite (search_loop_step fuel opt Hgt Hrows).
    pose proof (Hall (Fin (midpoint l h))) as Hfeasible.
    unfold is_feasible in Hfeasible. rewrite Hrows in Hfeasible.
    rewrite Hfeasible.
    pose proof (midpoint_eq l h) as Hm. rewrite pow2_succ in Hw.
    destruct (Qlt_le_dec 100 (h - midpoint l h)) as [Hgt'|Hle'].
    + destruct (IH fuel (midpoint l h) h (Fin (midpoint l h)))
        as (o & Ho & Hmid & Hlt & Hnear);
        [lia|assumption|rewrite Hm; lra|].
      exists o. split; [assumption|]. rewrite Hm in Hmid.
      repeat split; try assumption. lra.
    + destruct fuel as [|fuel]; [lia|].
      exists (midpoint l h). split; [now apply search_loop_exit|].
      rewrite Hm in *. repeat split; lra.
Qed.

End Search.

(* ================================================================== *)
(** ** Arguments outside the domain *)
(* ================================================================== *)

(** A positive number over zero is [Infinity]. *)
Lemma div_pos_by_zero (x y : Q) :
  (0 < x)%Q -> (y == 0)%Q -> Fin x / Fin y = PInf.
Proof.
  intros Hx Hy. unfold div.
  apply Qeq_bool_iff in Hy. rewrite Hy.
  apply Qgt_alt in Hx. now rewrite Hx.
Qed.




(* ================================================================== *)
(** ** Spending nothing *)
(* ================================================================== *)

Lemma positive_mul (a b : num) : positive a -> positive b -> positive (a * b).
Proof.
  destruct a as [x| | |], b as [y| | |]; simpl; try contradiction.
  intros Hx Hy. change (0 < Qred (x * y))%Q. rewrite Qred_correct.
  now apply Qmult_lt_0_compat.
Qed.

Lemma growth_factor_positive (g : num) :
  finite g -> (-100 <? g) = true -> positive (1 + g / 100).
Proof.
  destruct g as [q| | |]; try discriminate. intros _ H.
  apply ltb_fin in H. rewrite div_100.
  change (0 < Qred (inject_Z 1 + Qred (q / inject_Z 100)))%Q.
  rewrite !Qred_correct.
  change (inject_Z 1) with 1%Q. change (inject_Z 100) with 100%Q.
  change (inject_Z (-100)) with (-100)%Q in H.
  assert (E : (q / 100 == q * (1 # 100))%Q) by field. rewrite E. lra.
Qed.

Lemma zero_div_positive (a : num) : positive a -> 0 / a = 0.
Proof.
  destruct a as [x| | |]; simpl; try contradiction. intro Hx.
  change (0 : num) with (Fin (inject_Z 0)).
  rewrite div_fin_nonzero by (intro E; rewrite E in Hx; now apply Qlt_irrefl in Hx).
  change (inject_Z 0) with (Qred 0) at 2. apply Fin_Qred_eq.
  change (inject_Z 0) with 0%Q. field.
  intro E; rewrite E in Hx; now apply Qlt_irrefl in Hx.
Qed.

(** [Math.max] of zeros only is [0], or [-Infinity] when there is none. *)
Lemma max_list_zeros (l : list num) :
  (forall x, In x l -> x = 0) -> max_list l = 0 \/ max_list l = NInf.
Proof.
  unfold max_list.
  assert (H : forall acc, acc = 0 \/ acc = NInf ->
            (forall x, In x l -> x = 0) ->
            fold_left Js.max l acc = 0 \/ fold_left Js.max l acc = NInf).
  { induction l as [|x l IH]; intros acc Hacc Hl; simpl; [assumption|].
    apply IH.
    - rewrite (Hl x) by now left. destruct Hacc as [-> | ->]; now left.
    - intros y Hy. apply Hl. now right. }
  apply H. now right.
Qed.

Section ZeroExpenses.

Variable inputs : Inputs.t.

Hypothesis Hamount : positive (Inputs.bitcoinAmount inputs).
Hypothesis Hprice : positive (Inputs.bitcoinPrice inputs).
Hypothesis Hinterest : finite (Inputs.interestRate inputs).
Hypothesis Hinflation : finite (Inputs.inflationRate inputs).
Hypothesis Hexpenses : Inputs.annualExpenses inputs = 0.
Hypothesis Hschedule : prices_stay_positive inputs = true.

Lemma expenses_after_zero (k : nat) : expenses_after inputs k = 0.
Proof.
  induction k as [|k IH]; simpl; [assumption|].
  rewrite IH. apply zero_mul.
  apply finite_add; [reflexivity|now apply finite_div_100].
Qed.

Lemma borrowed_after_zero (k : nat) : borrowed_after inputs k = 0.
Proof.
  induction k as [|k IH]; simpl; [reflexivity|].
  rewrite IH, expenses_after_zero. reflexivity.
Qed.

Lemma interest_after_zero (k : nat) : interest_after inputs k = 0.
Proof.
  induction k as [|k IH]; simpl; [reflexivity|].
  rewrite IH, borrowed_after_zero.
  rewrite zero_mul by now apply finite_div_100. reflexivity.
Qed.

Lemma growth_of_year_above (k : nat) (g : num) :
  growth_of_year inputs k = Ok g -> positive (1 + g / 100).
Proof.
  intro H. apply growth_rate_for_In in H. destruct H as (e & He & <-).
  unfold prices_stay_positive in Hschedule.
  rewrite forallb_forall in Hschedule. apply Hschedule in He.
  apply andb_true_iff in He. destruct He as [Hf Hg].
  now apply growth_factor_positive.
Qed.

Lemma price_after_positive (k : nat) (price : num) :
  price_after inputs k = Ok price -> positive price.
Proof.
  revert price. induction k as [|k IH]; simpl; intros price H.
  - now injection H as <-.
  - destruct (price_after inputs k) as [p|e]; [|discriminate].
    destruct (growth_of_year inputs k) as [g|e] eqn:Hg; [|discriminate].
    simpl in H. injection H as <-.
    apply positive_mul; [now apply IH|now apply growth_of_year_above with k].
Qed.

Lemma row_of_year_ltv_zero (k : nat) (row : Row.t) :
  row_of_year inputs k = Ok row -> Row.ltvRatio row = 0.
Proof.
  unfold row_of_year.
  destruct (price_after inputs k) as [price|e] eqn:Hp; [|discriminate].
  destruct (growth_of_year inputs k) as [g|e]; [|discriminate].
  simpl. intros [= <-]. cbv beta iota delta [Row.ltvRatio].
  unfold debt_after.
  rewrite (borrowed_after_zero (S k)), (interest_after_zero (S k)).
  change (0 + 0) with (0 : num).
  rewrite zero_div_positive; [reflexivity|].
  apply positive_mul; [now apply price_after_positive with k|assumption].
Qed.

Lemma zero_expenses_max_ltv (rows : list Row.t) :
  calculateProjections inputs = Ok rows ->
  maxLTVInProjections rows = 0 \/ maxLTVInProjections rows = NInf.
Proof.
  intro Hrows. apply calculateProjections_rows in Hrows.
  destruct Hrows as [_ Hrows]. apply max_list_zeros.
  intros x Hx. apply in_map_iff in Hx. destruct Hx as (row & <- & Hin).
  apply In_nth_error in Hin. destruct Hin as [k Hk].
  apply Hrows in Hk. now apply row_of_year_ltv_zero with k.
Qed.

End ZeroExpenses.

(* ================================================================== *)
(** ** Spending less *)
(* ================================================================== *)

Lemma le_add (a b c d : num) : le a b -> le c d -> le (a + c) (b + d).
Proof.
  destruct a as [x| | |], b as [y| | |], c as [z| | |], d as [t| | |];
    simpl; try contradiction.
  intros H1 H2. change (Qred (x + z) <= Qred (y + t))%Q.
  rewrite !Qred_correct. lra.
Qed.

Lemma le_mul_nonneg (a b c : num) : le a b -> nonneg c -> le (a * c) (b * c).
Proof.
  destruct a as [x| | |], b as [y| | |], c as [z| | |];
    simpl; try contradiction.
  intros H1 H2. change (Qred (x * z) <= Qred (y * z))%Q.
  rewrite !Qred_correct. now apply Qmult_le_compat_r.
Qed.

Lemma le_div_positive (a b c : num) :
  le a b -> positive c -> le (a / c) (b / c).
Proof.
  destruct a as [x| | |], b as [y| | |], c as [z| | |];
    simpl; try contradiction.
  intros H1 H2.
  assert (Hz : ~ (z == 0)%Q).
  { intro E. rewrite E in H2. now apply Qlt_irrefl in H2. }
  rewrite !div_fin_nonzero by assumption.
  change (Qred (x / z) <= Qred (y / z))%Q. rewrite !Qred_correct.
  unfold Qdiv. apply Qmult_le_compat_r; [assumption|].
  apply Qlt_le_weak. now apply Qinv_lt_0_compat.
Qed.

Lemma le_round (a b : num) : le a b -> le (round a) (round b).
Proof.
  destruct a as [x| | |], b as [y| | |]; simpl; try contradiction.
  intro H. rewrite <- Zle_Qle. apply Qfloor_resp_le. lra.
Qed.

Lemma le_reflexive (a : num) : finite a -> le a a.
Proof. destruct a; try discriminate. intros _. apply Qle_refl. Qed.

Lemma le_of_leb (a b : num) :
  finite a -> finite b -> (a <=? b) = true -> le a b.
Proof.
  destruct a, b; try discriminate. intros _ _ H. now apply leb_fin in H.
Qed.

(** [-Infinity] twice, or two finite numbers in order: how the running
    maxima of two projections compare. *)
Definition le_or_none (a b : num) : Prop :=
  (a = NInf /\ b = NInf) \/ le a b.

Lemma max_le (a a' x x' : num) :
  le_or_none a a' -> le x x' -> le_or_none (Js.max a x) (Js.max a' x').
Proof.
  intros [[-> ->] | Ha] Hx; right.
  - destruct x, x'; simpl in *; try contradiction. exact Hx.
  - destruct a as [p| | |], a' as [p'| | |], x as [q| | |], x' as [q'| | |];
      simpl in *; try contradiction.
    unfold Js.max.
    destruct (Qle_bool p q) eqn:E1, (Qle_bool p' q') eqn:E2; simpl;
      try apply Qle_bool_iff in E1; try apply Qle_bool_iff in E2;
      try apply Qle_bool_false in E1; try apply Qle_bool_false in E2; lra.
Qed.

Lemma max_list_le (l l' : list num) :
  Forall2 le l l' -> le_or_none (max_list l) (max_list l').
Proof.
  unfold max_list.
  assert (H : forall acc acc', le_or_none acc acc' -> Forall2 le l l' ->
            le_or_none (fold_left Js.max l acc) (fold_left Js.max l' acc')).
  { intros acc acc' Hacc Hl. revert acc acc' Hacc.
    induction Hl as [|x x' l l' Hx Hl IH]; intros acc acc' Hacc; simpl.
    - assumption.
    - apply IH. now apply max_le. }
  apply H. left. split; reflexivity.
Qed.

Lemma leb_le_or_none (a b m : num) :
  le_or_none a b -> (b <=? m) = true -> (a <=? m) = true.
Proof.
  intros [[-> ->] | H] Hb; [assumption|].
  destruct a as [x| | |], b as [y| | |]; simpl in H; try contradiction.
  destruct m as [q| | |]; try discriminate; [|reflexivity].
  apply leb_fin. apply leb_fin in Hb. lra.
Qed.

Lemma Forall2_nth_error {A B} (R : A -> B -> Prop) (l : list A) (l' : list B) :
  length l = length l' ->
  (forall k x y, nth_error l k = Some x -> nth_error l' k = Some y -> R x y) ->
  Forall2 R l l'.
Proof.
  revert l'. induction l as [|x l IH]; intros [|y l'] Hlen H;
    try discriminate; constructor.
  - apply (H 0%nat); reflexivity.
  - apply IH; [simpl in Hlen; lia|].
    intros k a b Ha Hb. apply (H (S k)); assumption.
Qed.

Section ExpensesMonotone.

Variable inputs : Inputs.t.
Variables e e' : num.

Hypothesis Hle : le e e'.
Hypothesis Hinterest : nonneg (Inputs.interestRate inputs).
Hypothesis Hinflation : nonneg (Inputs.inflationRate inputs).
Hypothesis Hamount : positive (Inputs.bitcoinAmount inputs).
Hypothesis Hprice : positive (Inputs.bitcoinPrice inputs).
Hypothesis Hschedule : prices_stay_positive inputs = true.
Hypothesis Hnonempty : Inputs.growthRates inputs <> [].

Let lower := Inputs.with_annualExpenses inputs e.
Let upper := Inputs.with_annualExpenses inputs e'.

Lemma expenses_after_mono (k : nat) :
  le (expenses_after lower k) (expenses_after upper k).
Proof.
  induction k as [|k IH]; simpl; [assumption|].
  apply le_mul_nonneg; [assumption|].
  apply nonneg_add; [apply nonneg_1|now apply nonneg_div_100].
Qed.

Lemma borrowed_after_mono (k : nat) :
  le (borrowed_after lower k) (borrowed_after upper k).
Proof.
  induction k as [|k IH]; simpl; [apply Qle_refl|].
  apply le_add; [assumption|apply expenses_after_mono].
Qed.

Lemma interest_after_mono (k : nat) :
  le (interest_after lower k) (interest_after upper k).
Proof.
  induction k as [|k IH]; simpl; [apply Qle_refl|].
  apply le_add; [assumption|].
  apply le_mul_nonneg; [apply borrowed_after_mono|now apply nonneg_div_100].
Qed.

Lemma debt_after_mono (k : nat) :
  le (debt_after lower k) (debt_after upper k).
Proof.
  unfold debt_after.
  apply le_add; [apply borrowed_after_mono|apply interest_after_mono].
Qed.

(** The price does not depend on the expenses. *)
Lemma price_after_with_annualExpenses (x : num) (k : nat) :
  price_after (Inputs.with_annualExpenses inputs x) k = price_after inputs k.
Proof.
  induction k as [|k IH]; simpl; [reflexivity|]. now rewrite IH.
Qed.

Lemma ltvRatio_mono (k : nat) (row row' : Row.t) :
  row_of_year lower k = Ok row ->
  row_of_year upper k = Ok row' ->
  le (Row.ltvRatio row) (Row.ltvRatio row').
Proof.
  unfold row_of_year, lower, upper.
  rewrite !price_after_with_annualExpenses.
  change (growth_of_year (Inputs.with_annualExpenses inputs e) k)
    with (growth_of_year inputs k).
  change (growth_of_year (Inputs.with_annualExpenses inputs e') k)
    with (growth_of_year inputs k).
  destruct (price_after inputs k) as [price|x] eqn:Hp; [|discriminate].
  destruct (growth_of_year inputs k) as [g|x]; [|discriminate].
  simpl. intros [= <-] [= <-]. cbv beta iota delta [Row.ltvRatio].
  apply le_round. apply le_mul_nonneg; [|simpl; discriminate].
  apply le_div_positive; [apply debt_after_mono|].
  apply positive_mul; [|assumption].
  now apply price_after_positive with inputs k.
Qed.

(** A level below a feasible level is feasible. *)
Lemma is_feasible_below (maxLTV : num) :
  is_feasible inputs maxLTV e' = true -> is_feasible inputs maxLTV e = true.
Proof.
  unfold is_feasible. fold lower. fold upper.
  destruct (calculateProjections_total lower Hnonempty) as [rows Hrows].
  destruct (calculateProjections_total upper Hnonempty) as [rows' Hrows'].
  rewrite Hrows, Hrows'.
  apply leb_le_or_none. apply max_list_le.
  apply calculateProjections_rows in Hrows. destruct Hrows as [Hlen Hrows].
  apply calculateProjections_rows in Hrows'. destruct Hrows' as [Hlen' Hrows'].
  apply Forall2_nth_error.
  - rewrite !length_map, Hlen, Hlen'. reflexivity.
  - intros k x y Hx Hy. rewrite nth_error_map in Hx, Hy.
    destruct (nth_error rows k) as [row|] eqn:Hrow; [|discriminate].
    destruct (nth_error rows' k) as [row'|] eqn:Hrow'; [|discriminate].
    simpl in Hx, Hy. injection Hx as <-. injection Hy as <-.
    apply ltvRatio_mono with k; [now apply Hrows|now apply Hrows'].
Qed.

End ExpensesMonotone.

(* ================================================================== *)
(** ** The optimal expenses *)
(* ================================================================== *)

Lemma valid_inputs_inv (inputs : Inputs.t) :
  valid_inputs inputs = true ->
  positive (Inputs.bitcoinAmount inputs) /\
  positive (Inputs.bitcoinPrice inputs) /\
  nonneg (Inputs.interestRate inputs) /\
  nonneg (Inputs.inflationRate inputs) /\
  positive (Inputs.maxLTV inputs).
Proof.
  unfold valid_inputs. rewrite !andb_true_iff.
  intros [[[[[[[[[[[H1 H2] H3] H4] H5] H6] H7] H8] H9] H10] H11] H12].
  repeat split;
    first [now apply positive_of_ltb | now apply nonneg_of_leb].
Qed.

(** A ceiling other than [0] and [NaN] is used as it is. *)
Lemma effective_maxLTV_positive (inputs : Inputs.t) :
  positive (Inputs.maxLTV inputs) ->
  effective_maxLTV inputs = Inputs.maxLTV inputs.
Proof.
  unfold effective_maxLTV, Js.or.
  destruct (Inputs.maxLTV inputs) as [q| | |]; simpl; try contradiction.
  intro Hq. destruct (Qeq_bool q 0) eqn:E; [|reflexivity].
  apply Qeq_bool_iff in E. rewrite E in Hq. now apply Qlt_irrefl in Hq.
Qed.

(** The ceiling the search compares with is never [NaN]. *)
Lemma effective_maxLTV_above_NInf (inputs : Inputs.t) :
  (NInf <=? effective_maxLTV inputs) = true.
Proof.
  unfold effective_maxLTV, Js.or.
  destruct (Inputs.maxLTV inputs) as [q| | |]; simpl; try reflexivity.
  destruct (Qeq_bool q 0); reflexivity.
Qed.

Lemma with_annualExpenses_total (inputs : Inputs.t) :
  Inputs.growthRates inputs <> [] ->
  forall e, exists rows,
    calculateProjections (Inputs.with_annualExpenses inputs e) = Ok rows.
Proof.
  intros Hs e. apply calculateProjections_total. exact Hs.
Qed.

Lemma zero_expenses_feasible (inputs : Inputs.t) :
  valid_inputs inputs = true ->
  Inputs.growthRates inputs <> [] ->
  prices_stay_positive inputs = true ->
  is_feasible inputs (Inputs.maxLTV inputs) 0 = true.
Proof.
  intros Hvalid Hs Hsane.
  destruct (valid_inputs_inv inputs Hvalid) as (Ha & Hp & Hi & Hf & Hm).
  destruct (with_annualExpenses_total inputs Hs 0) as [rows Hrows].
  unfold is_feasible. rewrite Hrows.
  destruct (@zero_expenses_max_ltv (Inputs.with_annualExpenses inputs 0)
              Ha Hp (nonneg_finite _ Hi) (nonneg_finite _ Hf) eq_refl Hsane
              rows Hrows) as [-> | ->];
    destruct (Inputs.maxLTV inputs) as [q| | |]; simpl in Hm;
    try contradiction; try reflexivity.
  apply leb_fin. change (inject_Z 0) with 0%Q. lra.
Qed.



(** The level known to be feasible is [optimalExpenses], not the value
    returned: for [tight_inputs] the search ends on 54687.5, whose third
    year stands at 71 percent; the solver returns 54688, whose third year
    stands at 72. *)
Example rounded_optimum_above_ceiling :
  valid_inputs tight_inputs = true /\
  search_loop (enough_fuel tight_inputs) tight_inputs 71 0 100000 0
  = Some (Ok (Fin (109375 # 2))) /\
  findOptimalAnnualExpenses (enough_fuel tight_inputs) tight_inputs
  = Some (Ok 54688) /\
  is_feasible tight_inputs 71 (Fin (109375 # 2)) = true /\
  is_feasible tight_inputs 71 54688 = false /\
  (exists rows,
     calculateProjections (Inputs.with_annualExpenses tight_inputs 54688)
     = Ok rows /\ map Row.ltvRatio rows = [55; 71; 72]).
Proof.
  repeat split; try (vm_compute; reflexivity).
  eexists. split; vm_compute; reflexivity.
Qed.

(** For the default inputs the solver finds 106860 a year. *)
Example optimal_expenses_default :
  findOptimalAnnualExpenses (enough_fuel default_inputs) default_inputs
  = Some (Ok 106860).
Proof. vm_compute. reflexivity. Qed.



(** There the solver returns 299927 of the 300000 at stake. *)
Example no_years_optimum_value :
  findOptimalAnnualExpenses (enough_fuel no_years_inputs) no_years_inputs
  = Some (Ok 299927).
Proof. vm_compute. reflexivity. Qed.

(* ================================================================== *)
(** ** Further properties of the projection *)
(* ================================================================== *)

(** **** X1
    When [calculateProjections] returns, it returns one row per year, and
    the [year] fields of the rows are 1, 2, ..., [years] in this order. *)
Theorem projection_rows_cover_years (inputs : Inputs.t) (rows : list Row.t) :
  calculateProjections inputs = Ok rows ->
  length rows = Z.to_nat (Inputs.years inputs) /\
  map Row.year rows = years_from 1 (Z.to_nat (Inputs.years inputs)).
Proof.
  intro H. apply calculateProjections_rows in H. destruct H as [Hlen Hrows].
  split; [assumption|]. apply nth_error_ext. intro k.
  rewrite nth_error_map.
  destruct (nth_error rows k) as [row|] eqn:Hk; simpl.
  - assert (Hlt : (k < Z.to_nat (Inputs.years inputs))%nat).
    { rewrite <- Hlen. apply nth_error_Some. congruence. }
    rewrite years_from_nth by assumption.
    apply Hrows in Hk. unfold row_of_year in Hk.
    destruct (price_after inputs k) as [price|e]; [|discriminate].
    destruct (growth_of_year inputs k) as [g|e]; [|discriminate].
    simpl in Hk. injection Hk as <-. cbv [Row.year]. f_equal. lia.
  - symmetry. apply nth_error_None. rewrite years_from_length, <- Hlen.
    now apply nth_error_None.
Qed.

Lemma projection_rows_cover_years_witness :
  calculateProjections default_inputs = Ok default_rows /\
  length default_rows = 20%nat /\
  map Row.year default_rows
  = [1; 2; 3; 4; 5; 6; 7; 8; 9; 10; 11; 12; 13; 14; 15; 16; 17; 18; 19; 20]%Z.
Proof.
  split; [exact default_rows_ok|].
  exact (@projection_rows_cover_years default_inputs default_rows
           default_rows_ok).
Defined.

(** **** X2
    [calculateProjections] throws (the [TypeError] of reading [.rate] off
    [undefined]) exactly when the schedule is empty and there is at least
    one year to simulate. *)
Theorem projection_throws_iff_no_schedule (inputs : Inputs.t) :
  calculateProjections inputs = Throw TypeError <->
  Inputs.growthRates inputs = [] /\ (1 <= Inputs.years inputs)%Z.
Proof.
  split.
  - intro H. destruct (Inputs.growthRates inputs) as [|g gs] eqn:Hgs.
    + split; [reflexivity|].
      destruct (Z_lt_le_dec (Inputs.years inputs) 1) as [Hlt|Hge];
        [|assumption].
      rewrite calculateProjections_no_years in H by lia. discriminate.
    + destruct (calculateProjections_total inputs) as [rows Hrows].
      * rewrite Hgs. discriminate.
      * rewrite Hrows in H. discriminate.
  - intros [Hgs Hyears]. unfold calculateProjections.
    destruct (Z.to_nat (Inputs.years inputs)) as [|n] eqn:Hn; [lia|].
    simpl. unfold year_step, growth_rate_for. rewrite Hgs. reflexivity.
Qed.

(** **** X3
    The price a row starts from is the price the row before it ended on,
    and the first row starts from [inputs.bitcoinPrice]: the rounded start
    and end prices of consecutive rows agree. *)
Theorem price_starts_where_previous_year_ended
    (inputs : Inputs.t) (rows : list Row.t) (k : nat) (row : Row.t) :
  calculateProjections inputs = Ok rows ->
  nth_error rows k = Some row ->
  (k = 0%nat ->
   Row.bitcoinPriceStart row = round (Inputs.bitcoinPrice inputs)) /\
  (forall next, nth_error rows (S k) = Some next ->
     Row.bitcoinPriceStart next = Row.bitcoinPriceEnd row).
Proof.
  intros Hrows Hrow.
  apply calculateProjections_rows in Hrows. destruct Hrows as [_ Hrows].
  apply Hrows in Hrow. unfold row_of_year in Hrow.
  destruct (price_after inputs k) as [price|e] eqn:Hp; [|discriminate].
  destruct (growth_of_year inputs k) as [g|e] eqn:Hg; [|discriminate].
  simpl in Hrow. injection Hrow as <-. split.
  - intros ->. simpl in Hp. injection Hp as <-. reflexivity.
  - intros next Hnext. apply Hrows in Hnext. unfold row_of_year in Hnext.
    simpl price_after in Hnext. rewrite Hp, Hg in Hnext. simpl in Hnext.
    destruct (growth_of_year inputs (S k)) as [g'|e]; [|discriminate].
    simpl in Hnext. injection Hnext as <-. reflexivity.
Qed.

Lemma price_starts_where_previous_year_ended_witness :
  Row.bitcoinPriceStart default_row_1 = 100000 /\
  Row.bitcoinPriceStart default_row_2 = Row.bitcoinPriceEnd default_row_1.
Proof.
  destruct (@price_starts_where_previous_year_ended
              default_inputs default_rows 0 default_row_1)
    as [Hfirst Hnext].
  - exact default_rows_ok.
  - reflexivity.
  - split; [now apply Hfirst|]. apply Hnext. reflexivity.
Defined.

(* ================================================================== *)
(** ** Further properties of the schedule *)
(* ================================================================== *)

Section ScheduleValues.

Lemma decayed_mono (a b : Q) (y y' : Z) :
  (b <= a)%Q -> (y <= y')%Z -> (decayed a b y' <= decayed a b y)%Q.
Proof.
  intros Hab Hy. unfold decayed.
  assert (Hk : (inject_Z (y - 1) <= inject_Z (y' - 1))%Q)
    by (rewrite <- Zle_Qle; lia).
  change (inject_Z 9) with 9%Q.
  assert (Hp : (0 <= (a - b) * (inject_Z (y' - 1) - inject_Z (y - 1)))%Q)
    by (apply Qmult_le_0_compat; lra).
  assert (E : (a - (a - b) / 9 * inject_Z (y - 1)
               - (a - (a - b) / 9 * inject_Z (y' - 1))
               == (1 # 9) * ((a - b) * (inject_Z (y' - 1) - inject_Z (y - 1))))%Q)
    by field.
  generalize dependent ((a - b) * (inject_Z (y' - 1) - inject_Z (y - 1)))%Q.
  intros p Hp E.
  generalize dependent (a - (a - b) / 9 * inject_Z (y - 1))%Q. intros u.
  generalize dependent (a - (a - b) / 9 * inject_Z (y' - 1))%Q. intros u' E.
  lra.
Qed.

Lemma decayed_below_terminal (a b : Q) (y : Z) :
  (a <= b)%Q -> (1 <= y < 10)%Z -> (decayed a b y <= b)%Q.
Proof.
  intros Hab Hy. unfold decayed. apply decay_below_terminal; trivial.
  - change 0%Q with (inject_Z 0). rewrite <- Zle_Qle. lia.
  - change 8%Q with (inject_Z 8). rewrite <- Zle_Qle. lia.
Qed.

Lemma decayed_first (a b : Q) : (decayed a b 1 == a)%Q.
Proof.
  unfold decayed. change (inject_Z (1 - 1)) with 0%Q.
  change (inject_Z 9) with 9%Q. field.
Qed.

(** The value of [schedule_rate] on finite rates: the terminal rate from
    year 10 on, the larger of the terminal rate and the decayed rate
    before. *)
Lemma schedule_rate_cases (a b : Q) (y : Z) :
  exists c, schedule_rate (Fin a) (Fin b) y = Fin c /\
    (((10 <= y)%Z /\ c = b) \/
     ((y < 10)%Z /\
      (((b <= decayed a b y)%Q /\ (c == decayed a b y)%Q) \/
       ((decayed a b y < b)%Q /\ c = b)))).
Proof.
  unfold schedule_rate. destruct (Z.leb_spec 10 y) as [Hge|Hlt].
  - exists b. split; [reflexivity|]. left. now split.
  - change ((Fin a - Fin b) / 9)
      with (Fin (Qred (Qred (a - b) / inject_Z 9))).
    change (Fin a - Fin (Qred (Qred (a - b) / inject_Z 9)) * of_Z (y - 1))
      with (Fin (Qred (a - Qred (Qred (Qred (a - b) / inject_Z 9)
                                  * inject_Z (y - 1))))).
    set (c := Qred (a - Qred (Qred (Qred (a - b) / inject_Z 9)
                               * inject_Z (y - 1)))).
    assert (Hc : (c == decayed a b y)%Q).
    { unfold c, decayed. rewrite !Qred_correct. reflexivity. }
    unfold Js.max. destruct (Qle_bool b c) eqn:E.
    + exists c. split; [reflexivity|]. right. split; [assumption|]. left.
      apply Qle_bool_iff in E. rewrite <- Hc. split; [assumption|reflexivity].
    + exists b. split; [reflexivity|]. right. split; [assumption|]. right.
      apply Qle_bool_false in E. rewrite <- Hc. now split.
Qed.

Lemma schedule_rate_above_terminal (a b : Q) (y : Z) :
  exists c, schedule_rate (Fin a) (Fin b) y = Fin c /\ (b <= c)%Q.
Proof.
  destruct (schedule_rate_cases a b y) as (c & Hc & H). exists c.
  split; [assumption|].
  destruct H as [[_ ->] | [_ [[H1 H2] | [_ ->]]]];
    try apply Qle_refl. now rewrite H2.
Qed.

Lemma schedule_rate_below_initial (a b : Q) (y : Z) :
  (b <= a)%Q -> (1 <= y)%Z ->
  exists c, schedule_rate (Fin a) (Fin b) y = Fin c /\ (c <= a)%Q.
Proof.
  intros Hab Hy. destruct (schedule_rate_cases a b y) as (c & Hc & H).
  exists c. split; [assumption|].
  destruct H as [[_ ->] | [_ [[H1 H2] | [_ ->]]]]; try assumption.
  pose proof (decayed_first a b) as Hfirst.
  assert (Hm : (decayed a b y <= decayed a b 1)%Q)
    by now apply decayed_mono.
  lra.
Qed.

(** From year 1 on the rate never rises from one year to a later one. *)
Lemma schedule_rate_mono (a b : Q) (y y' : Z) :
  (1 <= y <= y')%Z ->
  le (schedule_rate (Fin a) (Fin b) y') (schedule_rate (Fin a) (Fin b) y).
Proof.
  intros Hy.
  destruct (schedule_rate_cases a b y) as (c & -> & H).
  destruct (schedule_rate_cases a b y') as (c' & -> & H'). simpl.
  destruct H' as [[_ ->] | [Hy' H']].
  - destruct H as [[_ ->] | [_ [[H1 H2] | [_ ->]]]];
      try apply Qle_refl. now rewrite H2.
  - destruct H as [[Hge _] | [_ H]]; [lia|].
    destruct (Qlt_le_dec a b) as [Hab|Hab].
    + assert (Hu : (decayed a b y <= b)%Q)
        by (apply decayed_below_terminal; [lra|lia]).
      assert (Hu' : (decayed a b y' <= b)%Q)
        by (apply decayed_below_terminal; [lra|lia]).
      destruct H as [[H1 H2] | [_ ->]], H' as [[H1' H2'] | [_ ->]]; lra.
    + assert (Hm : (decayed a b y' <= decayed a b y)%Q)
        by (apply decayed_mono; [assumption|lia]).
      destruct H as [[H1 H2] | [H1 ->]], H' as [[H1' H2'] | [H1' ->]]; lra.
Qed.

Lemma round2_le (x y : num) : le x y -> le (round2 x) (round2 y).
Proof.
  intro H. unfold round2.
  apply le_div_positive; [|simpl; reflexivity].
  apply le_round. apply le_mul_nonneg; [assumption|simpl; discriminate].
Qed.

(** A rounded rate is a reduced fraction, so two rounded rates of one value
    are one term. *)
Lemma round2_reduced (c : Q) : exists x, round2 (Fin c) = Fin (Qred x).
Proof.
  unfold round2. eexists. reflexivity.
Qed.

Lemma le_antisym_reduced (x y : Q) :
  le (Fin (Qred x)) (Fin (Qred y)) -> le (Fin (Qred y)) (Fin (Qred x)) ->
  Fin (Qred x) = Fin (Qred y).
Proof.
  simpl. intros H1 H2. apply Fin_Qred_eq.
  rewrite !Qred_correct in H1, H2. now apply Qle_antisym.
Qed.

Lemma le_transitive (a b c : num) : le a b -> le b c -> le a c.
Proof.
  destruct a, b, c; simpl; try contradiction. apply Qle_trans.
Qed.

Lemma leb_of_le (a b : num) : le a b -> (a <=? b) = true.
Proof.
  destruct a, b; simpl; try contradiction. intro H. now apply leb_fin.
Qed.

End ScheduleValues.

Section GeneratedSchedule.

Variables initialRate terminalRate : num.
Variable years : Z.

Let schedule := generateGrowthRates initialRate terminalRate years.
Let entry_of (y : Z) : Entry.t :=
  Entry.mk y (round2 (schedule_rate initialRate terminalRate y)).

Lemma generated_nth (k : nat) :
  nth_error schedule k
  = if (Z.of_nat k <? years)%Z then Some (entry_of (Z.of_nat k + 1)) else None.
Proof.
  unfold schedule. rewrite generateGrowthRates_map, nth_error_map.
  destruct (Z.ltb_spec (Z.of_nat k) years) as [Hlt|Hge].
  - rewrite years_from_nth by lia. cbn [option_map]. unfold entry_of.
    now replace (1 + Z.of_nat k)%Z with (Z.of_nat k + 1)%Z by lia.
  - replace (nth_error (years_from 1 (Z.to_nat years)) k) with (@None Z);
      [reflexivity|].
    symmetry. apply nth_error_None. rewrite years_from_length. lia.
Qed.

Lemma generated_nth_inv (k : nat) (e : Entry.t) :
  nth_error schedule k = Some e ->
  (Z.of_nat k < years)%Z /\ e = entry_of (Z.of_nat k + 1).
Proof.
  rewrite generated_nth.
  destruct (Z.ltb_spec (Z.of_nat k) years); [|discriminate].
  intros [= <-]. now split.
Qed.

Lemma find_years_from (f : Z -> Entry.t) (n : nat) (y : Z) (k : nat) :
  (forall z, Entry.year (f z) = z) -> (k < n)%nat ->
  find (fun g => (Entry.year g =? y + Z.of_nat k)%Z) (map f (years_from y n))
  = Some (f (y + Z.of_nat k)%Z).
Proof.
  intros Hf. revert y k. induction n as [|n IH]; intros y k Hk; [lia|].
  simpl. rewrite Hf. destruct (Z.eqb_spec y (y + Z.of_nat k)) as [E|E].
  - now rewrite <- E.
  - destruct k as [|k]; [lia|].
    replace (y + Z.of_nat (S k))%Z with (y + 1 + Z.of_nat k)%Z by lia.
    apply IH. lia.
Qed.

(** Every year of the horizon has its entry. *)
Lemma generated_find (k : nat) :
  (Z.of_nat k < years)%Z ->
  find (fun g => (Entry.year g =? Z.of_nat k + 1)%Z) schedule
  = Some (entry_of (Z.of_nat k + 1)).
Proof.
  intro Hk. unfold schedule. rewrite generateGrowthRates_map.
  replace (Z.of_nat k + 1)%Z with (1 + Z.of_nat k)%Z by lia.
  apply (find_years_from entry_of); [reflexivity|lia].
Qed.

Lemma last_cons_default {A} (a d : A) (l : list A) :
  last (a :: l) d = last l a.
Proof.
  revert a d. induction l as [|x l IH]; intros a d; [reflexivity|].
  change (last (a :: x :: l) d) with (last (x :: l) d).
  now rewrite !IH.
Qed.

Lemma last_map_years_from (f : Z -> Entry.t) (n : nat) (y : Z) (d : Entry.t) :
  last (map f (years_from y (S n))) d = f (y + Z.of_nat n)%Z.
Proof.
  revert y d. induction n as [|n IH]; intros y d.
  - simpl. f_equal. lia.
  - change (years_from y (S (S n))) with (y :: years_from (y + 1) (S n)).
    rewrite map_cons, last_cons_default, IH. f_equal. lia.
Qed.

(** The last entry is the one of the last year. *)
Lemma generated_last :
  (1 <= years)%Z -> last_rate schedule = Ok (Entry.rate (entry_of years)).
Proof.
  intro Hy. unfold schedule. rewrite generateGrowthRates_map.
  destruct (Z.to_nat years) as [|n] eqn:Hn; [lia|].
  fold entry_of.
  assert (E : last_rate (map entry_of (years_from 1 (S n)))
              = Ok (Entry.rate (last (map entry_of (years_from 1 (S n)))
                                  (entry_of 0)))).
  { change (years_from 1 (S n)) with (1%Z :: years_from (1 + 1) n).
    rewrite map_cons. unfold last_rate. now rewrite last_cons_default. }
  rewrite E, last_map_years_from. do 3 f_equal. lia.
Qed.

End GeneratedSchedule.



Lemma firstn_years_from (n n' : nat) (y : Z) :
  (n <= n')%nat -> firstn n (years_from y n') = years_from y n.
Proof.
  revert n' y. induction n as [|n IH]; intros n' y Hn; [reflexivity|].
  destruct n' as [|n']; [lia|]. simpl. f_equal. apply IH. lia.
Qed.

Lemma schedule_of_shorter_horizon_is_prefix_aux
    (initialRate terminalRate : num) (years years' : Z) :
  (years <= years')%Z ->
  generateGrowthRates initialRate terminalRate years
  = firstn (Z.to_nat years)
      (generateGrowthRates initialRate terminalRate years').
Proof.
  intro H. rewrite !generateGrowthRates_map, firstn_map.
  rewrite firstn_years_from by lia. reflexivity.
Qed.

(** **** X5
    The rate of a year does not depend on the horizon: the schedule for
    [years] years is the first [years] entries of the schedule for any
    longer horizon. *)
Theorem schedule_of_shorter_horizon_is_prefix
    (initialRate terminalRate : num) (years years' : Z) :
  (years <= years')%Z ->
  generateGrowthRates initialRate terminalRate years
  = firstn (Z.to_nat years)
      (generateGrowthRates initialRate terminalRate years').
Proof. apply schedule_of_shorter_horizon_is_prefix_aux. Qed.

Lemma schedule_of_shorter_horizon_is_prefix_witness :
  generateGrowthRates 60 15 12
  = firstn (Z.to_nat 12) (generateGrowthRates 60 15 20).
Proof.
  apply (@schedule_of_shorter_horizon_is_prefix 60 15 12 20). lia.
Defined.



(** With a terminal rate [>= 0], a year whose rounded rate is [0] is
    followed by zeros only, so that the last entry carries the same rate. *)
Lemma zero_rate_is_last_rate (a b : Q) (y years : Z) :
  (0 <= b)%Q -> (1 <= y <= years)%Z ->
  truthy (round2 (schedule_rate (Fin a) (Fin b) y)) = false ->
  round2 (schedule_rate (Fin a) (Fin b) years)
  = round2 (schedule_rate (Fin a) (Fin b) y).
Proof.
  intros Hb Hy Hfalsy.
  assert (Hmono : le (round2 (schedule_rate (Fin a) (Fin b) years))
                     (round2 (schedule_rate (Fin a) (Fin b) y)))
    by (apply round2_le, schedule_rate_mono; lia).
  assert (Hlow : le 0 (round2 (schedule_rate (Fin a) (Fin b) years))).
  { destruct (schedule_rate_above_terminal a b years) as (c & -> & Hc).
    change (0 : num) with (round2 (Fin 0)). apply round2_le. simpl. lra. }
  destruct (schedule_rate_cases a b y) as (c & Ec & _).
  destruct (schedule_rate_cases a b years) as (c' & Ec' & _).
  rewrite Ec in *. rewrite Ec' in *.
  destruct (round2_reduced c) as [x Ex], (round2_reduced c') as [x' Ex'].
  rewrite Ex in *. rewrite Ex' in *.
  apply le_antisym_reduced; [assumption|].
  simpl in Hfalsy. apply negb_false_iff, Qeq_bool_iff in Hfalsy.
  simpl in Hlow |- *. rewrite Hfalsy. exact Hlow.
Qed.



(* ================================================================== *)
(** ** Further properties of the search *)
(* ================================================================== *)



(** Rounding a whole number leaves it as it is. *)
Lemma round_of_Z (z : Z) : round (of_Z z) = of_Z z.
Proof.
  unfold of_Z at 1. rewrite round_fin. f_equal.
  pose proof (Qfloor_le (inject_Z z + (1 # 2))) as Hl.
  pose proof (Qlt_floor (inject_Z z + (1 # 2))) as Hu.
  set (f := Qfloor (inject_Z z + (1 # 2))) in *.
  assert (H1 : (inject_Z f < inject_Z (z + 1))%Q).
  { rewrite inject_Z_plus. change (inject_Z 1) with 1%Q. lra. }
  assert (H2 : (inject_Z z < inject_Z (f + 1))%Q) by lra.
  rewrite <- Zlt_Qlt in H1, H2. lia.
Qed.

Section SearchBracket.

Variable inputs : Inputs.t.
Variable maxLTV : num.
Variable bound : Q.

Hypothesis Hno_throw :
  forall e, exists rows,
    calculateProjections (Inputs.with_annualExpenses inputs e) = Ok rows.

(** The two bounds of the search close to within 100 of each other; the
    lower one, which is also [optimalExpenses], never leaves [0 .. bound],
    and the upper one is the initial bound or a level that failed the
    test. *)
Lemma search_loop_bracket (n : nat) :
  forall (fuel : nat) (l h : Q),
    (n < fuel)%nat ->
    (h - l <= 100 * inject_Z (2 ^ Z.of_nat n))%Q ->
    (0 <= l)%Q -> (l <= h)%Q -> (h <= bound)%Q ->
    (h = bound \/ is_feasible inputs maxLTV (Fin h) = false) ->
    exists l' h',
      search_loop fuel inputs maxLTV (Fin l) (Fin h) (Fin l)
      = Some (Ok (Fin l')) /\
      (0 <= l')%Q /\ (l' <= h')%Q /\ (h' <= bound)%Q /\ (h' - l' <= 100)%Q /\
      (h' = bound \/ is_feasible inputs maxLTV (Fin h') = false).
Proof.
  induction n as [|n IH]; intros fuel l h Hfuel Hw Hl Hlh Hh Hhigh;
    (destruct fuel as [|fuel]; [lia|]).
  - change (inject_Z (2 ^ Z.of_nat 0)) with 1%Q in Hw.
    exists l, h. rewrite search_loop_exit by lra.
    repeat split; first [assumption | lra].
  - destruct (Qlt_le_dec 100 (h - l)) as [Hgt|Hle].
    + destruct (Hno_throw (Fin (midpoint l h))) as [rows Hrows].
      rewrite (search_loop_step inputs maxLTV fuel (Fin l) Hgt Hrows).
      pose proof (midpoint_eq l h) as Hm. rewrite pow2_succ in Hw.
      destruct (maxLTVInProjections rows <=? maxLTV) eqn:Htest.
      * apply IH; try assumption; try lia; rewrite Hm; lra.
      * apply IH; try assumption; try lia; try (rewrite Hm; lra).
        right. unfold is_feasible. now rewrite Hrows.
    + exists l, h. rewrite search_loop_exit by assumption.
      repeat split; assumption.
Qed.

End SearchBracket.





Lemma search_loop_ignores_expenses (inputs : Inputs.t) (e maxLTV : num) :
  forall (fuel : nat) (low high opt : num),
    search_loop fuel (Inputs.with_annualExpenses inputs e) maxLTV low high opt
    = search_loop fuel inputs maxLTV low high opt.
Proof.
  induction fuel as [|fuel IH]; intros low high opt; [reflexivity|].
  rewrite !search_loop_S.
  destruct (high - low >? PRECISION); [|reflexivity]. cbv zeta.
  change (Inputs.with_annualExpenses (Inputs.with_annualExpenses inputs e)
            ((low + high) / 2))
    with (Inputs.with_annualExpenses inputs ((low + high) / 2)).
  destruct (calculateProjections
              (Inputs.with_annualExpenses inputs ((low + high) / 2)))
    as [rows|x]; [|reflexivity].
  destruct (maxLTVInProjections rows <=? maxLTV); apply IH.
Qed.

(** **** X11
    The solver does not read [inputs.annualExpenses]: whatever that field
    holds, the result is the same. *)
Theorem optimum_ignores_entered_expenses
    (inputs : Inputs.t) (e : num) (fuel : nat) :
  findOptimalAnnualExpenses fuel (Inputs.with_annualExpenses inputs e)
  = findOptimalAnnualExpenses fuel inputs.
Proof.
  unfold findOptimalAnnualExpenses. cbv zeta.
  change (effective_maxLTV (Inputs.with_annualExpenses inputs e))
    with (effective_maxLTV inputs).
  change (Inputs.bitcoinPrice (Inputs.with_annualExpenses inputs e))
    with (Inputs.bitcoinPrice inputs).
  change (Inputs.bitcoinAmount (Inputs.with_annualExpenses inputs e))
    with (Inputs.bitcoinAmount inputs).
  now rewrite search_loop_ignores_expenses.
Qed.

(* ================================================================== *)
(** ** Debt without interest, and the breakdown of a year *)
(* ================================================================== *)

Lemma mul_zero_rate (a : num) : finite a -> a * (0 / 100) = 0.
Proof.
  intro Ha. destruct (finite_inv Ha) as [x ->].
  change (0 / 100 : num) with (Fin 0).
  change (Fin x * Fin 0) with (Fin (Qred (x * 0))).
  change (0 : num) with (Fin (Qred 0)). apply Fin_Qred_eq. ring.
Qed.

Lemma add_zero_r (a : num) : finite a -> round (a + 0) = round a.
Proof.
  intro Ha. destruct (finite_inv Ha) as [x ->].
  change (Fin x + 0) with (Fin (Qred (x + 0))).
  apply round_compat. rewrite Qred_correct. ring.
Qed.

Lemma sub_self (a : num) : finite a -> a - a = 0.
Proof.
  intro Ha. destruct (finite_inv Ha) as [x ->].
  change (Fin x - Fin x) with (Fin (Qred (x - x))).
  change (0 : num) with (Fin (Qred 0)). apply Fin_Qred_eq. ring.
Qed.

Lemma interest_after_no_rate (inputs : Inputs.t) (k : nat) :
  all_finite inputs = true ->
  Inputs.interestRate inputs = 0 ->
  interest_after inputs k = 0.
Proof.
  intros Hfin Hrate. induction k as [|k IH]; [reflexivity|].
  cbn [interest_after]. rewrite IH, Hrate.
  rewrite mul_zero_rate by now apply borrowed_after_finite.
  reflexivity.
Qed.



Lemma within_sym (tol a b : num) : within tol a b = within tol b a.
Proof. unfold within. apply andb_comm. Qed.



(** The two figures do differ: with expenses of 100000.5 a year the first
    row shows a total borrowed of 100001 and the breakdown of the second
    year shows 100000 as borrowed before. *)
Example modal_previous_borrowed_differs :
  exists first second,
    calculateProjections half_unit_inputs = Ok [first; second] /\
    Row.totalBorrowed first = 100001 /\
    modalPreviousBorrowed second = 100000.
Proof. vm_compute. eexists _, _. repeat split. Qed.

(* ================================================================== *)
(** ** What the debt depends on *)
(* ================================================================== *)

Section SameSpending.

Variables inputs inputs' : Inputs.t.

Hypothesis Hexpenses :
  Inputs.annualExpenses inputs' = Inputs.annualExpenses inputs.
Hypothesis Hinterest :
  Inputs.interestRate inputs' = Inputs.interestRate inputs.
Hypothesis Hinflation :
  Inputs.inflationRate inputs' = Inputs.inflationRate inputs.

Lemma expenses_after_same (k : nat) :
  expenses_after inputs' k = expenses_after inputs k.
Proof.
  induction k as [|k IH]; cbn [expenses_after]; [assumption|].
  now rewrite IH, Hinflation.
Qed.

Lemma borrowed_after_same (k : nat) :
  borrowed_after inputs' k = borrowed_after inputs k.
Proof.
  induction k as [|k IH]; cbn [borrowed_after]; [reflexivity|].
  now rewrite IH, expenses_after_same.
Qed.

Lemma interest_after_same (k : nat) :
  interest_after inputs' k = interest_after inputs k.
Proof.
  induction k as [|k IH]; cbn [interest_after]; [reflexivity|].
  now rewrite IH, borrowed_after_same, Hinterest.
Qed.

End SameSpending.

(** **** X14
    The debt columns of the table do not depend on Bitcoin: two projections
    with the same expenses, interest rate and inflation rate show the same
    [totalBorrowed], [totalInterest], [totalDebt] and [annualExpenses] in
    every year they both have, whatever their prices, amounts and
    schedules. *)
Theorem debt_columns_ignore_bitcoin
    (inputs inputs' : Inputs.t) (rows rows' : list Row.t)
    (k : nat) (row row' : Row.t) :
  Inputs.annualExpenses inputs' = Inputs.annualExpenses inputs ->
  Inputs.interestRate inputs' = Inputs.interestRate inputs ->
  Inputs.inflationRate inputs' = Inputs.inflationRate inputs ->
  calculateProjections inputs = Ok rows ->
  calculateProjections inputs' = Ok rows' ->
  nth_error rows k = Some row ->
  nth_error rows' k = Some row' ->
  Row.totalBorrowed row' = Row.totalBorrowed row /\
  Row.totalInterest row' = Row.totalInterest row /\
  Row.totalDebt row' = Row.totalDebt row /\
  Row.annualExpenses row' = Row.annualExpenses row.
Proof.
  intros He Hi Hf Hrows Hrows' Hrow Hrow'.
  apply calculateProjections_rows in Hrows, Hrows'.
  destruct Hrows as [_ Hrows]. destruct Hrows' as [_ Hrows'].
  apply Hrows in Hrow. apply Hrows' in Hrow'.
  unfold row_of_year in Hrow, Hrow'.
  destruct (price_after inputs k) as [p|x]; [|discriminate].
  destruct (growth_of_year inputs k) as [g|x]; [|discriminate].
  destruct (price_after inputs' k) as [p'|x]; [|discriminate].
  destruct (growth_of_year inputs' k) as [g'|x]; [|discriminate].
  cbn [bind] in Hrow, Hrow'.
  injection Hrow as Hrow. injection Hrow' as Hrow'.
  assert (Hb : Row.totalBorrowed row = round (borrowed_after inputs (S k)))
    by now rewrite <- Hrow.
  assert (Hb' : Row.totalBorrowed row' = round (borrowed_after inputs' (S k)))
    by now rewrite <- Hrow'.
  assert (Hn : Row.totalInterest row = round (interest_after inputs (S k)))
    by now rewrite <- Hrow.
  assert (Hn' : Row.totalInterest row' = round (interest_after inputs' (S k)))
    by now rewrite <- Hrow'.
  assert (Hd : Row.totalDebt row = round (debt_after inputs (S k)))
    by now rewrite <- Hrow.
  assert (Hd' : Row.totalDebt row' = round (debt_after inputs' (S k)))
    by now rewrite <- Hrow'.
  assert (Hx : Row.annualExpenses row = round (expenses_after inputs k))
    by now rewrite <- Hrow.
  assert (Hx' : Row.annualExpenses row' = round (expenses_after inputs' k))
    by now rewrite <- Hrow'.
  rewrite Hb, Hb', Hn, Hn', Hd, Hd', Hx, Hx'. unfold debt_after.
  rewrite !(borrowed_after_same inputs inputs' He Hf),
          !(interest_after_same inputs inputs' He Hi Hf),
          !(expenses_after_same inputs inputs' He Hf).
  repeat split.
Qed.

Lemma debt_columns_ignore_bitcoin_witness :
  exists rows' row',
    calculateProjections other_bitcoin_inputs = Ok rows' /\
    nth_error rows' 2 = Some row' /\
    Row.totalDebt row' = Row.totalDebt default_row_3 /\
    Row.annualExpenses row' = Row.annualExpenses default_row_3.
Proof.
  destruct (calculateProjections other_bitcoin_inputs)
    as [rows'|x] eqn:Hrows'; [|vm_compute in Hrows'; discriminate Hrows'].
  destruct (nth_error rows' 2) as [row'|] eqn:Hrow';
    [|vm_compute in Hrows'; injection Hrows' as <-; discriminate Hrow'].
  exists rows', row'. split; [reflexivity|]. split; [exact Hrow'|].
  destruct (@debt_columns_ignore_bitcoin default_inputs other_bitcoin_inputs
              default_rows rows' 2 default_row_3 row')
    as (_ & _ & Hd & Hx);
    first [assumption | exact default_rows_ok | reflexivity | idtac].
  split; [exact Hd | exact Hx].
Defined.

(* ================================================================== *)
(** ** Scaling the holdings and the expenses together *)
(* ================================================================== *)

Section Scaling.

Variable inputs : Inputs.t.
Variable c : Q.

Hypothesis Hc : (0 < c)%Q.
Hypothesis Hfinite : all_finite inputs = true.
Hypothesis Hamount : positive (Inputs.bitcoinAmount inputs).
Hypothesis Hprice : positive (Inputs.bitcoinPrice inputs).
Hypothesis Hschedule : prices_stay_positive inputs = true.

Let inputs' := scale_holdings (Fin c) inputs.

Lemma scaled_add (a a' b b' : num) :
  scaled c a b -> scaled c a' b' -> scaled c (a + a') (b + b').
Proof.
  destruct a as [x| | |], b as [y| | |]; try contradiction.
  destruct a' as [x'| | |], b' as [y'| | |]; try contradiction.
  change (Fin x + Fin x') with (Fin (Qred (x + x'))).
  change (Fin y + Fin y') with (Fin (Qred (y + y'))).
  unfold scaled. intros H H'.
  rewrite !Qred_correct, H, H'. ring.
Qed.

Lemma scaled_mul (a b k : num) :
  scaled c a b -> finite k -> scaled c (a * k) (b * k).
Proof.
  destruct a as [x| | |], b as [y| | |]; try contradiction.
  destruct k as [z| | |]; try discriminate.
  change (Fin x * Fin z) with (Fin (Qred (x * z))).
  change (Fin y * Fin z) with (Fin (Qred (y * z))).
  unfold scaled. intros H _.
  rewrite !Qred_correct, H. ring.
Qed.

Lemma scaled_times (a : num) : finite a -> scaled c a (Fin c * a).
Proof.
  destruct a as [x| | |]; try discriminate. intros _.
  change (Fin c * Fin x) with (Fin (Qred (c * x))).
  unfold scaled. now rewrite Qred_correct.
Qed.

Lemma expenses_after_scaled (k : nat) :
  scaled c (expenses_after inputs k) (expenses_after inputs' k).
Proof.
  destruct (all_finite_inv inputs Hfinite) as (_ & _ & _ & Hinf & Hexp & _).
  induction k as [|k IH]; cbn [expenses_after].
  - now apply scaled_times.
  - apply scaled_mul; [exact IH|].
    apply finite_add; [reflexivity|now apply finite_div_100].
Qed.

Lemma borrowed_after_scaled (k : nat) :
  scaled c (borrowed_after inputs k) (borrowed_after inputs' k).
Proof.
  induction k as [|k IH]; cbn [borrowed_after].
  - unfold scaled. change (inject_Z 0) with 0%Q. ring.
  - apply scaled_add; [exact IH|apply expenses_after_scaled].
Qed.

Lemma interest_after_scaled (k : nat) :
  scaled c (interest_after inputs k) (interest_after inputs' k).
Proof.
  destruct (all_finite_inv inputs Hfinite) as (_ & _ & Hint & _).
  induction k as [|k IH]; cbn [interest_after].
  - unfold scaled. change (inject_Z 0) with 0%Q. ring.
  - apply scaled_add; [exact IH|].
    apply scaled_mul; [apply borrowed_after_scaled|].
    now apply finite_div_100.
Qed.

Lemma price_after_scaled (k : nat) :
  price_after inputs' k = price_after inputs k.
Proof.
  induction k as [|k IH]; cbn [price_after]; [reflexivity|].
  now rewrite IH.
Qed.

Lemma ltvRatio_scaled (k : nat) (row row' : Row.t) :
  row_of_year inputs k = Ok row ->
  row_of_year inputs' k = Ok row' ->
  Row.ltvRatio row' = Row.ltvRatio row.
Proof.
  unfold row_of_year. rewrite price_after_scaled.
  change (growth_of_year inputs' k) with (growth_of_year inputs k).
  destruct (price_after inputs k) as [price|x] eqn:Hp; [|discriminate].
  destruct (growth_of_year inputs k) as [g|x]; [|discriminate].
  cbn [bind]. intros [= <-] [= <-].
  cbv beta iota zeta delta [Row.ltvRatio].
  pose proof (price_after_positive inputs Hprice Hschedule k Hp) as Hpos.
  assert (Hdebt : scaled c (debt_after inputs (S k))
                           (debt_after inputs' (S k))).
  { unfold debt_after.
    apply scaled_add; [apply borrowed_after_scaled|apply interest_after_scaled]. }
  destruct (debt_after inputs (S k)) as [d| | |]; try contradiction.
  destruct (debt_after inputs' (S k)) as [d'| | |]; try contradiction.
  unfold scaled in Hdebt.
  destruct price as [p| | |]; try contradiction.
  change (Inputs.bitcoinAmount inputs')
    with (Fin c * Inputs.bitcoinAmount inputs).
  destruct (Inputs.bitcoinAmount inputs) as [a| | |]; try contradiction.
  cbn [positive] in Hpos, Hamount.
  change (Fin c * Fin a) with (Fin (Qred (c * a))).
  change (Fin p * Fin (Qred (c * a))) with (Fin (Qred (p * Qred (c * a)))).
  change (Fin p * Fin a) with (Fin (Qred (p * a))).
  assert (Hw : ~ (Qred (p * a) == 0)%Q).
  { rewrite Qred_correct. intro E.
    pose proof (Qmult_lt_0_compat _ _ Hpos Hamount). lra. }
  assert (Hw' : ~ (Qred (p * Qred (c * a)) == 0)%Q).
  { rewrite !Qred_correct. intro E.
    pose proof (Qmult_lt_0_compat _ _ Hc Hamount) as H1.
    pose proof (Qmult_lt_0_compat _ _ Hpos H1). lra. }
  rewrite (div_fin_nonzero d' Hw'), (div_fin_nonzero d Hw).
  change (Fin (Qred (d' / Qred (p * Qred (c * a)))) * 100)
    with (Fin (Qred (Qred (d' / Qred (p * Qred (c * a))) * inject_Z 100))).
  change (Fin (Qred (d / Qred (p * a))) * 100)
    with (Fin (Qred (Qred (d / Qred (p * a)) * inject_Z 100))).
  apply round_compat. rewrite !Qred_correct, Hdebt.
  field. repeat split; intro E; lra.
Qed.

End Scaling.



(* ================================================================== *)
(** ** Expenses and borrowing in closed form *)
(* ================================================================== *)

Section ClosedForm.

Variable inputs : Inputs.t.
Variables e i : Q.

Hypothesis Hexpenses : Inputs.annualExpenses inputs = Fin e.
Hypothesis Hinflation : Inputs.inflationRate inputs = Fin i.

Let f : Q := (1 + i / 100)%Q.

Lemma expenses_after_compound (k : nat) :
  exists x, expenses_after inputs k = Fin x /\ (x == e * compound f k)%Q.
Proof.
  induction k as [|k (x & Hx & Ex)]; cbn [expenses_after compound].
  - exists e. split; [assumption|]. ring.
  - rewrite Hx, Hinflation.
    change (Fin x * (1 + Fin i / 100))
      with (Fin (Qred (x * Qred (inject_Z 1 + Qred (i / inject_Z 100))))).
    eexists. split; [reflexivity|].
    rewrite !Qred_correct, Ex. unfold f.
    change (inject_Z 1) with 1%Q. change (inject_Z 100) with 100%Q. ring.
Qed.

Lemma borrowed_after_compound (k : nat) :
  exists b, borrowed_after inputs k = Fin b /\ (b == e * compound_sum f k)%Q.
Proof.
  induction k as [|k (b & Hb & Eb)]; cbn [borrowed_after compound_sum].
  - exists 0%Q. split; [reflexivity|]. ring.
  - destruct (expenses_after_compound k) as (x & Hx & Ex).
    rewrite Hb, Hx.
    change (Fin b + Fin x) with (Fin (Qred (b + x))).
    eexists. split; [reflexivity|].
    rewrite Qred_correct, Eb, Ex. ring.
Qed.

Lemma compound_sum_closed (k : nat) :
  ~ (i == 0)%Q ->
  (compound_sum f k == (compound f k - 1) / (f - 1))%Q.
Proof.
  intro Hi.
  assert (E : (f - 1 == i * (1 # 100))%Q) by (unfold f; field).
  assert (Hf : ~ (f - 1 == 0)%Q) by (intro H; apply Hi; lra).
  induction k as [|k IH]; cbn [compound_sum compound].
  - field. exact Hf.
  - rewrite IH. field. exact Hf.
Qed.

Lemma compound_sum_flat (k : nat) :
  (i == 0)%Q -> (compound_sum f k == inject_Z (Z.of_nat k))%Q.
Proof.
  intro Hi.
  assert (Hf : (f == 1)%Q) by (unfold f; rewrite Hi; field).
  assert (Hc : forall n, (compound f n == 1)%Q).
  { induction n as [|n IHn]; cbn [compound]; [reflexivity|].
    rewrite IHn, Hf. reflexivity. }
  induction k as [|k IH]; cbn [compound_sum]; [reflexivity|].
  rewrite IH, Hc, Nat2Z.inj_succ. unfold Z.succ.
  rewrite inject_Z_plus. reflexivity.
Qed.

End ClosedForm.



(* ================================================================== *)
(** ** The calculation effect of the page *)
(* ================================================================== *)

Lemma calculateProjections_throws (inputs : Inputs.t) :
  Inputs.growthRates inputs = [] -> (1 <= Inputs.years inputs)%Z ->
  calculateProjections inputs = Throw TypeError.
Proof.
  intros Hgs Hyears. unfold calculateProjections.
  destruct (Z.to_nat (Inputs.years inputs)) as [|n] eqn:Hn; [lia|].
  simpl. unfold year_step, growth_rate_for. rewrite Hgs. reflexivity.
Qed.

Lemma generateGrowthRates_nil (initialRate terminalRate : num) (years : Z) :
  (years <= 0)%Z -> generateGrowthRates initialRate terminalRate years = [].
Proof.
  intro H. apply length_zero_iff_nil.
  rewrite generateGrowthRates_length. lia.
Qed.

Lemma generateGrowthRates_not_nil (initialRate terminalRate : num) (years : Z) :
  (1 <= years)%Z -> generateGrowthRates initialRate terminalRate years <> [].
Proof.
  intros H E. apply (f_equal (@length _)) in E.
  rewrite generateGrowthRates_length in E. simpl in E. lia.
Qed.

(** The search raises nothing of its own. *)
Lemma search_loop_never_throws (inputs : Inputs.t) (maxLTV : num) :
  (forall e, exists rows,
     calculateProjections (Inputs.with_annualExpenses inputs e) = Ok rows) ->
  forall (fuel : nat) (low high opt : num) (e : exn),
    search_loop fuel inputs maxLTV low high opt <> Some (Throw e).
Proof.
  intros Htotal fuel. induction fuel as [|fuel IH]; intros low high opt e.
  - discriminate.
  - rewrite search_loop_S.
    destruct (high - low >? PRECISION); [|discriminate]. cbv zeta.
    destruct (Htotal ((low + high) / 2)) as [rows ->].
    destruct (maxLTVInProjections rows <=? maxLTV); apply IH.
Qed.

Lemma findOptimalAnnualExpenses_never_throws (inputs : Inputs.t) (fuel : nat) :
  (forall e, exists rows,
     calculateProjections (Inputs.with_annualExpenses inputs e) = Ok rows) ->
  forall e, findOptimalAnnualExpenses fuel inputs <> Some (Throw e).
Proof.
  intros Htotal e. unfold findOptimalAnnualExpenses. cbv zeta.
  destruct (search_loop fuel inputs (effective_maxLTV inputs) 0
              (Inputs.bitcoinPrice inputs * Inputs.bitcoinAmount inputs) 0)
    as [[o|e']|] eqn:Hs; try discriminate.
  now apply search_loop_never_throws in Hs.
Qed.

(** What the solver returns is a rounded number. *)
Lemma findOptimalAnnualExpenses_rounded
    (inputs : Inputs.t) (fuel : nat) (E : num) :
  findOptimalAnnualExpenses fuel inputs = Some (Ok E) ->
  exists opt, E = round opt.
Proof.
  unfold findOptimalAnnualExpenses. cbv zeta.
  destruct (search_loop fuel inputs (effective_maxLTV inputs) 0
              (Inputs.bitcoinPrice inputs * Inputs.bitcoinAmount inputs) 0)
    as [[o|e']|]; try discriminate.
  intros [= <-]. now exists o.
Qed.

Lemma round_round (a : num) : round (round a) = round a.
Proof.
  destruct a as [x| | |]; try reflexivity.
  rewrite (round_fin x). apply round_of_Z.
Qed.

Section Effect.

Variable page : Page.t.
Variable view : View.t.
Variable price : num.
Variable years : Z.
Variable growthRates : list Entry.t.

Hypothesis Hrates : page_growthRates page = Some growthRates.
Hypothesis Hyears : years_below (Page.years page) = Some years.
Hypothesis Hprice : Page.bitcoinPrice page = Some price.

Let base := baseInputs page price years growthRates.

Lemma recalculate_total_never_throws (fuel : nat) :
  (forall e, exists rows,
     calculateProjections (Inputs.with_annualExpenses base e) = Ok rows) ->
  recalculate fuel page view <> Some (Throw TypeError).
Proof.
  intro Htotal. unfold recalculate. rewrite Hrates, Hyears, Hprice.
  cbv zeta. fold base.
  destruct (Page.useOptimalExpenses page).
  - destruct (findOptimalAnnualExpenses fuel base) as [[optimal|e]|] eqn:Hopt.
    + destruct (Htotal optimal) as [rows ->]. discriminate.
    + now apply findOptimalAnnualExpenses_never_throws in Hopt.
    + discriminate.
  - destruct (Htotal (Page.annualExpenses page)) as [rows ->]. discriminate.
Qed.

Lemma recalculate_no_schedule_throws (fuel : nat) :
  growthRates = [] -> (1 <= years)%Z ->
  recalculate (S fuel) page view = Some (Throw TypeError).
Proof.
  intros Hnil Hone.
  assert (Hthrow : forall e,
             calculateProjections (Inputs.with_annualExpenses base e)
             = Throw TypeError).
  { intro e. apply calculateProjections_throws; [exact Hnil|exact Hone]. }
  unfold recalculate. rewrite Hrates, Hyears, Hprice. cbv zeta. fold base.
  destruct (Page.useOptimalExpenses page).
  - unfold findOptimalAnnualExpenses. cbv zeta. rewrite search_loop_S.
    destruct (_ >? PRECISION).
    + cbv zeta. rewrite Hthrow. reflexivity.
    + rewrite Hthrow. reflexivity.
  - rewrite Hthrow. reflexivity.
Qed.

End Effect.

(** **** X17
    Once a price is known, the calculation effect of the page raises the
    [TypeError] of an empty schedule exactly when [years] lies strictly
    between 0 and 1: the schedule then has no entry while the projection
    still runs for one year.  For every other value of [years], and
    whatever the other fields hold, it raises nothing (limits of the
    engine, such as the number of arguments [Math.max] accepts, are not
    modelled). *)
Theorem recalculation_throws_iff_fraction_of_a_year
    (fuel : nat) (page : Page.t) (view : View.t) :
  recalculate (S fuel) page view = Some (Throw TypeError) <->
  Page.bitcoinPrice page <> None /\
  exists q, Page.years page = Fin q /\ (0 < q)%Q /\ (q < 1)%Q.
Proof.
  split.
  - intro H.
    destruct (Page.bitcoinPrice page) as [price|] eqn:Hprice.
    2:{ unfold recalculate in H. rewrite Hprice in H.
        destruct (page_growthRates page), (years_below (Page.years page));
          discriminate. }
    split; [discriminate|].
    destruct (Page.years page) as [q| | |] eqn:Ey.
    + exists q. split; [reflexivity|].
      assert (Hrates : page_growthRates page
                       = Some (generateGrowthRates
                                 (Page.initialGrowthRate page)
                                 (Page.terminalGrowthRate page) (Qfloor q)))
        by (unfold page_growthRates; now rewrite Ey).
      assert (Hyears : years_below (Page.years page) = Some (Qceiling q))
        by now rewrite Ey.
      destruct (Z_lt_le_dec (Qfloor q) 1) as [Hfloor|Hfloor].
      * destruct (Z_lt_le_dec 0 (Qceiling q)) as [Hceil|Hceil].
        -- pose proof (Qlt_floor q) as Hu. pose proof (Qceiling_lt q) as Hl.
           assert (H1 : (inject_Z (Qfloor q + 1) <= inject_Z 1)%Q)
             by (rewrite <- Zle_Qle; lia).
           assert (H0 : (inject_Z 0 <= inject_Z (Qceiling q - 1))%Q)
             by (rewrite <- Zle_Qle; lia).
           change (inject_Z 1) with 1%Q in H1.
           change (inject_Z 0) with 0%Q in H0.
           split; lra.
        -- exfalso.
           apply (@recalculate_total_never_throws page view price _ _
                    Hrates Hyears Hprice (S fuel)); [|exact H].
           intro e. exists []. now apply calculateProjections_no_years.
      * exfalso.
        apply (@recalculate_total_never_throws page view price _ _
                 Hrates Hyears Hprice (S fuel)); [|exact H].
        intro e. apply calculateProjections_total.
        now apply generateGrowthRates_not_nil.
    + unfold recalculate, page_growthRates in H. rewrite Ey in H.
      discriminate.
    + exfalso.
      assert (Hrates : page_growthRates page
                       = Some (generateGrowthRates
                                 (Page.initialGrowthRate page)
                                 (Page.terminalGrowthRate page) 0))
        by (unfold page_growthRates; now rewrite Ey).
      assert (Hyears : years_below (Page.years page) = Some 0%Z)
        by now rewrite Ey.
      apply (@recalculate_total_never_throws page view price _ _
               Hrates Hyears Hprice (S fuel)); [|exact H].
      intro e. exists []. now apply calculateProjections_no_years.
    + exfalso.
      assert (Hrates : page_growthRates page
                       = Some (generateGrowthRates
                                 (Page.initialGrowthRate page)
                                 (Page.terminalGrowthRate page) 0))
        by (unfold page_growthRates; now rewrite Ey).
      assert (Hyears : years_below (Page.years page) = Some 0%Z)
        by now rewrite Ey.
      apply (@recalculate_total_never_throws page view price _ _
               Hrates Hyears Hprice (S fuel)); [|exact H].
      intro e. exists []. now apply calculateProjections_no_years.
  - intros [Hprice (q & Ey & H0 & H1)].
    destruct (Page.bitcoinPrice page) as [price|] eqn:Ep; [|congruence].
    assert (Hfloor : Qfloor q = 0%Z).
    { pose proof (Qfloor_le q) as Hl. pose proof (Qlt_floor q) as Hu.
      assert (Ha : (inject_Z (Qfloor q) < inject_Z 1)%Q)
        by (change (inject_Z 1) with 1%Q; lra).
      assert (Hb : (inject_Z 0 < inject_Z (Qfloor q + 1))%Q)
        by (change (inject_Z 0) with 0%Q; lra).
      rewrite <- Zlt_Qlt in Ha, Hb. lia. }
    assert (Hceil : Qceiling q = 1%Z).
    { pose proof (Qle_ceiling q) as Hu. pose proof (Qceiling_lt q) as Hl.
      assert (Ha : (inject_Z 0 < inject_Z (Qceiling q))%Q)
        by (change (inject_Z 0) with 0%Q; lra).
      assert (Hb : (inject_Z (Qceiling q - 1) < inject_Z 1)%Q)
        by (change (inject_Z 1) with 1%Q; lra).
      rewrite <- Zlt_Qlt in Ha, Hb. lia. }
    apply (@recalculate_no_schedule_throws page view price 1
             (generateGrowthRates (Page.initialGrowthRate page)
                (Page.terminalGrowthRate page) 0)).
    + unfold page_growthRates. rewrite Ey. cbn [years_at_most option_map].
      now rewrite Hfloor.
    + rewrite Ey. cbn [years_below]. now rewrite Hceil.
    + exact Ep.
    + reflexivity.
    + lia.
Qed.

(** "0.5" in the years field takes the page down; 20 years do not. *)
Example half_a_year_throws :
  recalculate 1 half_year_page initial_view = Some (Throw TypeError).
Proof. vm_compute. reflexivity. Qed.

(** Outside the open interval from 0 to 1 the schedule has an entry whenever
    the projection has a year. *)
Lemma page_projection_total (page : Page.t) (price : num) (q : Q) :
  ~ ((0 < q)%Q /\ (q < 1)%Q) ->
  forall e, exists rows,
    calculateProjections
      (Inputs.with_annualExpenses
         (baseInputs page price (Qceiling q)
            (generateGrowthRates (Page.initialGrowthRate page)
               (Page.terminalGrowthRate page) (Qfloor q))) e)
    = Ok rows.
Proof.
  intros Hq e.
  destruct (Z_lt_le_dec (Qfloor q) 1) as [Hfloor|Hfloor].
  - destruct (Z_lt_le_dec 0 (Qceiling q)) as [Hceil|Hceil].
    + exfalso. apply Hq.
      pose proof (Qlt_floor q) as Hu. pose proof (Qceiling_lt q) as Hl.
      assert (H1 : (inject_Z (Qfloor q + 1) <= inject_Z 1)%Q)
        by (rewrite <- Zle_Qle; lia).
      assert (H0 : (inject_Z 0 <= inject_Z (Qceiling q - 1))%Q)
        by (rewrite <- Zle_Qle; lia).
      change (inject_Z 1) with 1%Q in H1.
      change (inject_Z 0) with 0%Q in H0.
      split; lra.
    + exists []. now apply calculateProjections_no_years.
  - apply calculateProjections_total.
    now apply generateGrowthRates_not_nil.
Qed.



(** **** X19
    When the page computes the expenses itself, the figure it shows as the
    optimum is the [annualExpenses] of the first row of the table. *)
Theorem first_row_spends_the_optimum
    (fuel : nat) (page : Page.t) (view v : View.t) (row : Row.t) :
  Page.useOptimalExpenses page = true ->
  Page.bitcoinPrice page <> None ->
  recalculate fuel page view = Some (Ok v) ->
  nth_error (View.results v) 0 = Some row ->
  Row.annualExpenses row = View.optimalExpenses v.
Proof.
  intros Hmode Hprice H Hrow. unfold recalculate in H.
  destruct (page_growthRates page) as [growthRates|]; [|discriminate].
  destruct (years_below (Page.years page)) as [years|]; [|discriminate].
  destruct (Page.bitcoinPrice page) as [price|]; [|congruence].
  rewrite Hmode in H. cbv zeta in H.
  set (base := baseInputs page price years growthRates) in *.
  destruct (findOptimalAnnualExpenses fuel base) as [[optimal|e]|] eqn:Hopt;
    try discriminate.
  destruct (calculateProjections (Inputs.with_annualExpenses base optimal))
    as [rows|e] eqn:Hrows; [|discriminate].
  injection H as <-. cbn [View.results View.optimalExpenses] in *.
  apply calculateProjections_rows in Hrows. destruct Hrows as [_ Hrows].
  apply Hrows in Hrow. unfold row_of_year in Hrow.
  destruct (price_after _ 0) as [p|e]; [|discriminate].
  destruct (growth_of_year _ 0) as [g|e]; [|discriminate].
  cbn [bind] in Hrow. injection Hrow as Hrow.
  assert (Hx : Row.annualExpenses row = round optimal) by now rewrite <- Hrow.
  rewrite Hx.
  destruct (findOptimalAnnualExpenses_rounded _ _ Hopt) as [opt ->].
  apply round_round.
Qed.

Lemma first_row_spends_the_optimum_witness :
  exists v row,
    recalculate 13 default_page initial_view = Some (Ok v) /\
    nth_error (View.results v) 0 = Some row /\
    Row.annualExpenses row = View.optimalExpenses v.
Proof.
  destruct (recalculate 13 default_page initial_view) as [[v|e]|] eqn:Hv;
    [|vm_compute in Hv; discriminate Hv|vm_compute in Hv; discriminate Hv].
  destruct (nth_error (View.results v) 0) as [row|] eqn:Hrow;
    [|vm_compute in Hv; injection Hv as <-; discriminate Hrow].
  exists v, row. split; [reflexivity|]. split; [exact Hrow|].
  apply (@first_row_spends_the_optimum 13 default_page initial_view v row);
    first [assumption | reflexivity | discriminate].
Defined.

(* ================================================================== *)
(** ** Fetching the price *)
(* ================================================================== *)

(** One call leaves [lastSuccessfulFetch] alone, or sets it to its own clock
    value, and the latter only on a first success or a minute after the
    last one. *)
Lemma fetchBitcoinPrice_step
    (now : Z) (r : reply) (last last' : Z) (outcome : settled) :
  fetchBitcoinPrice now r last = (outcome, last') ->
  last' = last \/
  (last' = now /\ (last = 0 \/ FETCH_COOLDOWN_MS <= now - last)%Z).
Proof.
  unfold fetchBitcoinPrice.
  destruct (Z.eqb_spec last 0) as [H0|H0]; cbn [negb andb].
  - destruct (request r); intros [= _ <-]; [now left|right; auto].
  - destruct (Z.ltb_spec (now - last) FETCH_COOLDOWN_MS) as [Hin|Hout].
    + intros [= _ <-]. now left.
    + destruct (request r); intros [= _ <-]; [now left|right; auto].
Qed.

(** **** X20
    However the calls of [fetchBitcoinPrice] follow each other and whatever
    the API answers, a call only records a success when none was recorded
    before or when the last recorded one is at least 60000 ms older than
    the call. *)
Theorem quotes_are_a_minute_apart
    (calls : list (Z * reply)) (lastSuccessfulFetch : Z)
    (i : nat) (outcome outcome' : settled) (last last' : Z) :
  nth_error (fetch_run calls lastSuccessfulFetch) i = Some (outcome, last) ->
  nth_error (fetch_run calls lastSuccessfulFetch) (S i)
  = Some (outcome', last') ->
  last' <> last ->
  (last = 0 \/ FETCH_COOLDOWN_MS <= last' - last)%Z.
Proof.
  revert lastSuccessfulFetch i.
  induction calls as [|[now r] calls IH]; intros s0 i Hi Hi' Hne;
    [destruct i; discriminate|].
  cbn [fetch_run] in Hi, Hi'.
  destruct (fetchBitcoinPrice now r s0) as [o1 s1] eqn:H1.
  destruct i as [|i].
  - cbn [nth_error] in Hi, Hi'. injection Hi as <- <-.
    destruct calls as [|[now2 r2] calls]; [discriminate|].
    cbn [fetch_run nth_error] in Hi'.
    destruct (fetchBitcoinPrice now2 r2 s1) as [o2 s2] eqn:H2.
    injection Hi' as <- <-.
    destruct (fetchBitcoinPrice_step _ _ _ H2) as [E|[-> H]];
      [contradiction|exact H].
  - cbn [nth_error] in Hi, Hi'. now apply (IH s1 i).
Qed.

Lemma quotes_are_a_minute_apart_witness :
  let calls := [(1000, Response 200 (Some 64000)%js);
                (30000, Response 200 (Some 64500%js));
                (61000, Response 200 (Some 65000%js))]%Z in
  fetch_run calls 0
  = [(Resolved 64000, 1000); (Rejected RateLimited, 1000);
     (Resolved 65000, 61000)]%Z /\
  (1000 = 0 \/ FETCH_COOLDOWN_MS <= 61000 - 1000)%Z.
Proof.
  split; [reflexivity|].
  apply (@quotes_are_a_minute_apart
           [(1000, Response 200 (Some 64000)%js);
            (30000, Response 200 (Some 64500%js));
            (61000, Response 200 (Some 65000%js))]%Z 0 1
           (Rejected RateLimited) (Resolved 65000) 1000 61000);
    [reflexivity | reflexivity | discriminate].
Defined.



(* ================================================================== *)
(** ** Text fields *)
(* ================================================================== *)

Section Digits.


Lemma digit_char_cases (d : Z) :
  (0 <= d <= 9)%Z ->
  In d [0; 1; 2; 3; 4; 5; 6; 7; 8; 9]%Z.
Proof.
  intro H. simpl.
  assert (E : (d = 0 \/ d = 1 \/ d = 2 \/ d = 3 \/ d = 4 \/ d = 5 \/ d = 6
               \/ d = 7 \/ d = 8 \/ d = 9)%Z) by lia.
  intuition auto.
Qed.

Lemma digit_char_value (d : Z) :
  (0 <= d <= 9)%Z ->
  is_digit (digit_char d) = true /\ digit_value (digit_char d) = d.
Proof.
  intro H. apply digit_char_cases in H. simpl in H.
  repeat (destruct H as [<-|H]; [split; reflexivity|]). contradiction.
Qed.

Lemma is_digit_not_separator (c : ascii) :
  is_digit c = true ->
  Ascii.eqb c "," = false /\ Ascii.eqb c "." = false /\
  Ascii.eqb c "-" = false /\ Ascii.eqb c "+" = false /\
  Ascii.eqb "I" c = false /\ is_space c = false /\
  (0 <= digit_value c <= 9)%Z.
Proof.
  unfold is_digit, is_space, digit_value. intro H.
  apply andb_true_iff in H. destruct H as [H1 H2].
  apply Nat.leb_le in H1, H2.
  rewrite <- (ascii_nat_embedding c).
  set (n := nat_of_ascii c) in *.
  assert (E : (n = 48 \/ n = 49 \/ n = 50 \/ n = 51 \/ n = 52 \/ n = 53
               \/ n = 54 \/ n = 55 \/ n = 56 \/ n = 57)%nat) by lia.
  clearbody n.
  repeat (destruct E as [->|E]; [repeat split; (reflexivity || discriminate)|]).
  subst n. repeat split; (reflexivity || discriminate).
Qed.

Lemma digits_value_app (a b : str) :
  digits_value (a ++ b)
  = fold_left (fun v c => 10 * v + digit_value c)%Z b (digits_value a).
Proof. unfold digits_value. apply fold_left_app. Qed.

Lemma fold_digits_shift (ds : str) (v : Z) :
  fold_left (fun v c => 10 * v + digit_value c)%Z ds v
  = (v * 10 ^ Z.of_nat (length ds) + digits_value ds)%Z.
Proof.
  unfold digits_value. revert v.
  induction ds as [|c ds IH] using rev_ind; intro v.
  - simpl. lia.
  - rewrite !fold_left_app, length_app. cbn [fold_left length].
    rewrite (IH v), (IH 0%Z).
    rewrite Nat2Z.inj_add, Z.pow_add_r by lia.
    change (Z.of_nat 1) with 1%Z. lia.
Qed.

Lemma digits_value_nonneg (ds : str) :
  Forall (fun c => is_digit c = true) ds -> (0 <= digits_value ds)%Z.
Proof.
  unfold digits_value.
  induction ds as [|c ds IH] using rev_ind; intro H; [simpl; lia|].
  apply Forall_app in H. destruct H as [Hds Hc].
  rewrite fold_left_app. cbn [fold_left].
  apply Forall_inv in Hc. apply is_digit_not_separator in Hc.
  specialize (IH Hds). lia.
Qed.

(** The loop writes the digits of [n] in front of [acc]. *)
Lemma digits_loop_spec (fuel : nat) :
  forall (n : Z) (acc : str),
    (0 <= n < 2 ^ Z.of_nat (S fuel))%Z ->
    exists ds,
      digits_loop (S fuel) n acc = ds ++ acc /\
      ds <> [] /\
      Forall (fun c => is_digit c = true) ds /\
      digits_value ds = n.
Proof.
  induction fuel as [|fuel IH]; intros n acc Hn;
    cbn [digits_loop];
    assert (Hd : (0 <= n mod 10 <= 9)%Z)
      by (pose proof (Z.mod_pos_bound n 10); lia);
    destruct (digit_char_value Hd) as [Hdig Hval];
    (destruct (Z.ltb_spec n 10) as [Hlt|Hge];
     [exists [digit_char (n mod 10)]; repeat split;
      [discriminate
      |repeat constructor; exact Hdig
      |unfold digits_value; cbn [fold_left]; rewrite Hval;
       rewrite Z.mod_small by lia; lia]|]).
  - change (2 ^ Z.of_nat 1)%Z with 2%Z in Hn. lia.
  - destruct (IH (n / 10)%Z (digit_char (n mod 10) :: acc))
      as (ds & Hloop & Hne & Hall & Hv).
    { rewrite (Nat2Z.inj_succ (S fuel)), Z.pow_succ_r in Hn by lia.
      split; [apply Z.div_pos; lia|].
      apply Z.div_lt_upper_bound; lia. }
    exists (ds ++ [digit_char (n mod 10)]). repeat split.
    + cbn [digits_loop] in Hloop. rewrite Hloop, <- app_assoc. reflexivity.
    + destruct ds; discriminate.
    + apply Forall_app. split; [assumption|]. repeat constructor.
      exact Hdig.
    + rewrite digits_value_app. cbn [fold_left].
      rewrite Hv, Hval. pose proof (Z.div_mod n 10). lia.
Qed.

Lemma digits_spec (n : Z) :
  (0 <= n)%Z ->
  digits n <> [] /\
  Forall (fun c => is_digit c = true) (digits n) /\
  digits_value (digits n) = n.
Proof.
  intro Hn. unfold digits.
  destruct (@digits_loop_spec (Z.to_nat (Z.log2 n)) n [])
    as (ds & Hloop & Hne & Hall & Hv).
  - split; [assumption|].
    rewrite Nat2Z.inj_succ, Z2Nat.id by apply Z.log2_nonneg.
    destruct (Z.eq_dec n 0) as [->|Hnz]; [reflexivity|].
    apply Z.log2_spec. lia.
  - rewrite Hloop, app_nil_r. auto.
Qed.

End Digits.

Section Grouping.

Lemma remove_commas_group_reversed (n : nat) :
  forall s : str,
    (length s <= n)%nat ->
    remove_commas (group_reversed s) = remove_commas s.
Proof.
  induction n as [|n IH]; intros s Hlen.
  - destruct s; [reflexivity|simpl in Hlen; lia].
  - destruct s as [|a [|b [|c [|d rest]]]]; try reflexivity.
    change (group_reversed (a :: b :: c :: d :: rest))
      with ([a; b; c] ++ [","%char] ++ group_reversed (d :: rest)).
    change (a :: b :: c :: d :: rest) with ([a; b; c] ++ d :: rest).
    unfold remove_commas in *. rewrite !filter_app.
    rewrite (IH (d :: rest)) by (simpl in Hlen |- *; lia).
    reflexivity.
Qed.

Lemma remove_commas_digits (ds : str) :
  Forall (fun c => is_digit c = true) ds -> remove_commas ds = ds.
Proof.
  unfold remove_commas. induction 1 as [|c ds Hc _ IH]; [reflexivity|].
  cbn [filter]. apply is_digit_not_separator in Hc.
  destruct Hc as (-> & _). cbn [negb]. now rewrite IH.
Qed.

Lemma remove_commas_group (ds : str) :
  Forall (fun c => is_digit c = true) ds -> remove_commas (group ds) = ds.
Proof.
  intro H. unfold group.
  assert (E : forall s, remove_commas (rev s) = rev (remove_commas s)).
  { intro s. unfold remove_commas. induction s as [|c s IHs]; [reflexivity|].
    cbn [rev filter]. rewrite filter_app, IHs. cbn [filter].
    destruct (negb (Ascii.eqb c ",")); [reflexivity|].
    now rewrite app_nil_r. }
  rewrite E, (@remove_commas_group_reversed (length (rev ds))) by lia.
  rewrite E, rev_involutive. now apply remove_commas_digits.
Qed.

End Grouping.

Section Spans.

Lemma span_digits_app (ds rest : str) :
  Forall (fun c => is_digit c = true) ds ->
  match rest with [] => True | c :: _ => is_digit c = false end ->
  span_digits (ds ++ rest) = (ds, rest).
Proof.
  intros Hds Hrest. induction Hds as [|c ds Hc _ IH].
  - destruct rest as [|c rest]; [reflexivity|].
    cbn [app span_digits]. now rewrite Hrest.
  - cbn [app span_digits]. now rewrite Hc, IH.
Qed.

(** What [span_digits] returns: digits, then a rest that does not start
    with one. *)
Lemma span_digits_spec (s ds rest : str) :
  span_digits s = (ds, rest) ->
  s = ds ++ rest /\
  Forall (fun c => is_digit c = true) ds /\
  match rest with [] => True | c :: _ => is_digit c = false end.
Proof.
  revert ds rest. induction s as [|c s IH]; intros ds rest H.
  - injection H as <- <-. repeat split. constructor.
  - cbn [span_digits] in H. destruct (is_digit c) eqn:Hc.
    + destruct (span_digits s) as [ds' rest'].
      injection H as <- <-.
      destruct (IH ds' rest' eq_refl) as (-> & Hall & Hrest).
      repeat split; [constructor; assumption|assumption].
    + injection H as <- <-. repeat split; [constructor|assumption].
Qed.

End Spans.

(** The three decimals of [f] thousandths, zeros at the end dropped, are
    digits and denote [f / 1000]: checked for each [f] from 1 to 999. *)
Lemma fraction_digits_all_checked :
  forallb (fun f =>
             forallb is_digit (fraction_digits f)
             && match fraction_digits f with [] => false | _ :: _ => true end
             && Qeq_bool
                  (inject_Z (digits_value (fraction_digits f))
                   / inject_Z (10 ^ Z.of_nat (length (fraction_digits f))))
                  (f # 1000))
          (map Z.of_nat (seq 1 999)) = true.
Proof. vm_compute. reflexivity. Qed.

Lemma fraction_digits_spec (f : Z) :
  (0 < f < 1000)%Z ->
  Forall (fun c => is_digit c = true) (fraction_digits f) /\
  fraction_digits f <> [] /\
  (inject_Z (digits_value (fraction_digits f))
   / inject_Z (10 ^ Z.of_nat (length (fraction_digits f))) == f # 1000)%Q.
Proof.
  intro Hf. pose proof fraction_digits_all_checked as H.
  rewrite forallb_forall in H. specialize (H f).
  assert (Hin : In f (map Z.of_nat (seq 1 999))).
  { apply in_map_iff. exists (Z.to_nat f). split; [lia|].
    apply in_seq. lia. }
  apply H in Hin.
  rewrite !andb_true_iff in Hin. destruct Hin as [[Hall Hne] Hv].
  repeat split.
  - apply Forall_forall. now apply forallb_forall.
  - destruct (fraction_digits f); [discriminate|discriminate].
  - now apply Qeq_bool_iff.
Qed.

Section Parsing.

(** A text of digits, with a sign before it or none and decimals after it
    or none, is read as the number it spells. *)
Lemma parseFloat_formatted (negative : bool) (ds fds : str) :
  Forall (fun c => is_digit c = true) ds -> ds <> [] ->
  Forall (fun c => is_digit c = true) fds ->
  parseFloat ((if negative then ["-"%char] else [])
              ++ ds
              ++ match fds with [] => [] | _ :: _ => "."%char :: fds end)
  = let v := ((inject_Z (digits_value ds)
               + inject_Z (digits_value fds)
                 / inject_Z (10 ^ Z.of_nat (length fds))) * 1)%Q in
    Fin (Qred (if negative then - v else v)).
Proof.
  intros Hds Hne Hfds.
  destruct ds as [|c ds']; [contradiction|].
  pose proof (Forall_inv Hds) as Hc.
  destruct (is_digit_not_separator c Hc)
    as (_ & _ & Hminus & Hplus & HI & Hspace & _).
  set (frac := match fds with [] => [] | _ :: _ => "."%char :: fds end).
  assert (Hfrac : match frac with [] => True | x :: _ => is_digit x = false end)
    by (unfold frac; destruct fds; [exact I|reflexivity]).
  assert (Hrest : split_sign (trim_start
                    ((if negative then ["-"%char] else [])
                     ++ (c :: ds') ++ frac))
                  = (negative, (c :: ds') ++ frac)).
  { destruct negative.
    - reflexivity.
    - cbn [app trim_start]. rewrite Hspace.
      unfold split_sign. now rewrite Hminus, Hplus. }
  unfold parseFloat. rewrite Hrest.
  cbn [app starts_with]. rewrite HI. cbn [andb].
  change (c :: ds' ++ frac) with ((c :: ds') ++ frac).
  rewrite (span_digits_app _ Hds Hfrac). cbv beta iota.
  unfold frac. destruct fds as [|x fds']; [reflexivity|].
  change (Ascii.eqb "." ".") with true. cbv beta iota.
  pose proof (@span_digits_app (x :: fds') [] Hfds I) as Hsp.
  rewrite app_nil_r in Hsp. rewrite Hsp. reflexivity.
Qed.

(** A text of digits and dots is read as a number that is not negative, or
    as no number at all. *)
Lemma parseFloat_digits_and_dots (t : str) :
  Forall (fun c => is_digit c = true \/ c = "."%char) t ->
  parseFloat t = NaN \/ exists r, parseFloat t = Fin r /\ (0 <= r)%Q.
Proof.
  intro Ht.
  assert (Hhead : forall s, Forall (fun c => is_digit c = true \/ c = "."%char) s ->
            match s with
            | [] => True
            | c :: _ => is_space c = false /\ Ascii.eqb c "-" = false /\
                        Ascii.eqb c "+" = false /\ Ascii.eqb "I" c = false /\
                        Ascii.eqb c "e" = false /\ Ascii.eqb c "E" = false
            end).
  { intros [|c s] Hs; [exact I|]. apply Forall_inv in Hs.
    destruct Hs as [Hd| ->]; [|repeat split; reflexivity].
    pose proof (is_digit_not_separator c Hd) as (_ & _ & ? & ? & ? & ? & _).
    repeat split; try assumption.
    - destruct (Ascii.eqb_spec c "e") as [->|]; [discriminate|reflexivity].
    - destruct (Ascii.eqb_spec c "E") as [->|]; [discriminate|reflexivity]. }
  assert (Hsuffix : forall a b : str,
            Forall (fun c => is_digit c = true \/ c = "."%char) (a ++ b) ->
            Forall (fun c => is_digit c = true \/ c = "."%char) b).
  { intros a b H. now apply Forall_app in H. }
  assert (Hexp : forall s, Forall (fun c => is_digit c = true \/ c = "."%char) s ->
            exponent s = 0%Z).
  { intros s Hs. pose proof (Hhead s Hs) as H. destruct s as [|c s]; [reflexivity|].
    destruct H as (_ & _ & _ & _ & He & HE). unfold exponent.
    now rewrite He, HE. }
  unfold parseFloat.
  assert (Hstart : split_sign (trim_start t) = (false, t)).
  { pose proof (Hhead t Ht) as H. destruct t as [|c t']; [reflexivity|].
    destruct H as (Hs & Hm & Hp & _). cbn [trim_start]. rewrite Hs.
    unfold split_sign. now rewrite Hm, Hp. }
  rewrite Hstart.
  assert (Hinf : starts_with ["I"; "n"; "f"; "i"; "n"; "i"; "t"; "y"]%char t
                 = false).
  { pose proof (Hhead t Ht) as H. destruct t as [|c t']; [reflexivity|].
    destruct H as (_ & _ & _ & HI & _). cbn [starts_with]. now rewrite HI. }
  rewrite Hinf.
  destruct (span_digits t) as [ip s2] eqn:Hip.
  destruct (span_digits_spec _ Hip) as (Et & Hipd & Hs2).
  assert (Ht2 : Forall (fun c => is_digit c = true \/ c = "."%char) s2)
    by (apply (Hsuffix ip); now rewrite <- Et).
  assert (Hparts : exists fp s3,
            match s2 with
            | c :: t0 => if Ascii.eqb c "." then span_digits t0 else ([], s2)
            | [] => ([], s2)
            end = (fp, s3) /\
            Forall (fun c => is_digit c = true) fp /\
            Forall (fun c => is_digit c = true \/ c = "."%char) s3).
  { destruct s2 as [|c t0]; [exists [], []; repeat split; constructor|].
    destruct (Ascii.eqb c ".").
    - destruct (span_digits t0) as [fp s3] eqn:Hfp.
      destruct (span_digits_spec _ Hfp) as (Et0 & Hfpd & _).
      exists fp, s3. repeat split; [assumption|].
      apply (Hsuffix fp). rewrite <- Et0. now apply Forall_inv_tail in Ht2.
    - exists [], (c :: t0). repeat split; [constructor|assumption]. }
  destruct Hparts as (fp & s3 & -> & Hfpd & Hs3).
  rewrite (Hexp s3 Hs3). change (Qpower 10 0) with 1%Q.
  assert (Hval : (0 <= (inject_Z (digits_value ip)
                        + inject_Z (digits_value fp)
                          / inject_Z (10 ^ Z.of_nat (length fp))) * 1)%Q).
  { pose proof (digits_value_nonneg Hipd) as H1.
    pose proof (digits_value_nonneg Hfpd) as H2.
    assert (H3 : (0 < 10 ^ Z.of_nat (length fp))%Z)
      by (apply Z.pow_pos_nonneg; lia).
    rewrite Zle_Qle in H1, H2. rewrite Zlt_Qlt in H3.
    change (inject_Z 0) with 0%Q in *.
    apply Qmult_le_0_compat; [|discriminate].
    rewrite <- (Qplus_0_r 0). apply Qplus_le_compat; [assumption|].
    apply Qle_shift_div_l; [assumption|]. now rewrite Qmult_0_l. }
  destruct ip as [|c ip']; destruct fp as [|d fp'];
    [now left| right; eexists; split; [reflexivity|] ..];
    now rewrite Qred_correct.
Qed.

End Parsing.



Lemma Qfloor_whole_and_half (z : Z) : Qfloor (inject_Z z + (1 # 2)) = z.
Proof.
  pose proof (Qfloor_le (inject_Z z + (1 # 2))) as Hl.
  pose proof (Qlt_floor (inject_Z z + (1 # 2))) as Hu.
  set (f := Qfloor (inject_Z z + (1 # 2))) in *.
  assert (H1 : (inject_Z f < inject_Z (z + 1))%Q).
  { rewrite inject_Z_plus. change (inject_Z 1) with 1%Q. lra. }
  assert (H2 : (inject_Z z < inject_Z (f + 1))%Q) by lra.
  rewrite <- Zlt_Qlt in H1, H2. lia.
Qed.

Lemma thousandths_split (t : Z) :
  (inject_Z (t / 1000) + (t mod 1000 # 1000) == inject_Z t / 1000)%Q.
Proof.
  rewrite (Qmake_Qdiv (t mod 1000) 1000).
  rewrite (Z.div_mod t 1000) at 3 by lia.
  rewrite inject_Z_plus, inject_Z_mult.
  change (inject_Z (Z.pos 1000)) with 1000%Q.
  change (inject_Z 1000) with 1000%Q. field.
Qed.

(** The text of [formatNumber] for a finite value is read as the value
    rounded to three decimals. *)
Lemma formatted_number_parses_back (q : Q) :
  exists r : Q,
    parseFormattedNumber (formatNumber (Some (Fin q))) = Fin r /\
    (q - (1 # 2000) <= r)%Q /\ (r <= q + (1 # 2000))%Q /\
    (forall n : Z, (q == n # 1000)%Q -> r = Qred q).
Proof.
  unfold formatNumber, toLocaleString. cbv zeta.
  set (negative := negb (Qle_bool 0 q)).
  set (m := (if negative then - q else q)%Q).
  set (t := Qfloor (m * inject_Z 1000 + (1 # 2))).
  set (whole := (t / 1000)%Z). set (f := (t mod 1000)%Z).
  assert (Hsign : if negative then (q < 0)%Q else (0 <= q)%Q).
  { unfold negative. destruct (Qle_bool 0 q) eqn:E; cbn [negb].
    - now apply Qle_bool_iff.
    - apply Qnot_le_lt. intro H. apply Qle_bool_iff in H. congruence. }
  assert (Hm : (0 <= m)%Q) by (unfold m; destruct negative; lra).
  pose proof (Qfloor_le (m * inject_Z 1000 + (1 # 2))) as Hlow.
  pose proof (Qlt_floor (m * inject_Z 1000 + (1 # 2))) as Hhigh.
  fold t in Hlow, Hhigh. rewrite inject_Z_plus in Hhigh.
  change (inject_Z 1000) with 1000%Q in *. change (inject_Z 1) with 1%Q in *.
  assert (Ht : (0 <= t)%Z).
  { assert (H : (inject_Z (-1) < inject_Z t)%Q)
      by (change (inject_Z (-1)) with (-1)%Q; lra).
    rewrite <- Zlt_Qlt in H. lia. }
  assert (Hwhole : (0 <= whole)%Z) by (apply Z.div_pos; lia).
  assert (Hf : (0 <= f < 1000)%Z) by (apply Z.mod_pos_bound; lia).
  destruct (digits_spec Hwhole) as (Hne & Hall & Hv).
  set (fds := if (f =? 0)%Z then [] else fraction_digits f).
  assert (Hfds : Forall (fun c => is_digit c = true) fds /\
                 (inject_Z (digits_value fds)
                  / inject_Z (10 ^ Z.of_nat (length fds)) == f # 1000)%Q /\
                 (if (f =? 0)%Z then [] else "."%char :: fraction_digits f)
                 = match fds with [] => [] | _ :: _ => "."%char :: fds end).
  { unfold fds. destruct (Z.eqb_spec f 0) as [->|Hnz].
    - split; [constructor|split; reflexivity].
    - destruct (@fraction_digits_spec f) as (H1 & H2 & H3); [lia|].
      repeat split; [assumption|assumption|].
      destruct (fraction_digits f); [contradiction|reflexivity]. }
  destruct Hfds as (Hfall & Hfval & ->).
  assert (Hclean :
            remove_commas
              ((if negative then ["-"%char] else [])
               ++ group (digits whole)
               ++ match fds with [] => [] | _ :: _ => "."%char :: fds end)
            = (if negative then ["-"%char] else [])
              ++ digits whole
              ++ match fds with [] => [] | _ :: _ => "."%char :: fds end).
  { unfold remove_commas. rewrite !filter_app.
    fold (remove_commas (group (digits whole))).
    rewrite (remove_commas_group Hall). f_equal; [now destruct negative|].
    f_equal. destruct fds as [|x fds']; [reflexivity|].
    change ("."%char :: x :: fds') with (["."%char] ++ x :: fds').
    rewrite filter_app. f_equal. now apply remove_commas_digits. }
  unfold parseFormattedNumber. rewrite Hclean.
  rewrite (parseFloat_formatted negative Hall Hne Hfall). cbv zeta.
  rewrite Hv.
  set (v := ((inject_Z whole
              + inject_Z (digits_value fds)
                / inject_Z (10 ^ Z.of_nat (length fds))) * 1)%Q).
  assert (Ev : (v * 1000 == inject_Z t)%Q).
  { unfold v. rewrite Hfval. unfold whole, f. rewrite Qmult_1_r.
    rewrite thousandths_split. field. }
  exists (Qred (if negative then - v else v)).
  split; [reflexivity|].
  rewrite !Qred_correct.
  split; [|split].
  - unfold m in *. destruct negative; lra.
  - unfold m in *. destruct negative; lra.
  - intros n Hn. apply Qred_complete.
    set (k := if negative then (- n)%Z else n).
    assert (Hk : (m * 1000 == inject_Z k)%Q).
    { unfold m, k. rewrite (Qmake_Qdiv n 1000) in Hn.
      change (inject_Z (Z.pos 1000)) with 1000%Q in Hn.
      assert (Hn' : (q * 1000 == inject_Z n)%Q) by (rewrite Hn; field).
      destruct negative; [rewrite inject_Z_opp|]; lra. }
    assert (Etk : t = k).
    { unfold t. change (inject_Z 1000) with 1000%Q.
      rewrite (Qfloor_comp _ (inject_Z k + (1 # 2)))
        by (rewrite Hk; reflexivity).
      apply Qfloor_whole_and_half. }
    rewrite Etk in Ev. unfold m in Hk. destruct negative; lra.
Qed.


(** A Bitcoin amount of 0.12345678 is shown as 0.123, and is 0.123 once
    the field has been entered and left. *)
Example untouched_amount_loses_decimals :
  handleBlur false (formatNumber (Some (Fin (12345678 # 100000000))))
  = (["0"; "."; "1"; "2"; "3"]%char, Some (Fin (123 # 1000))).
Proof. vm_compute. reflexivity. Qed.
